(** * QA Memnet: a shallow embedding of [deeppavlov/models/ranking/qa_memnet.py]

    The module builds a Keras computation graph.  Tensors are modelled per
    example (the leading batch axis is mapped over): a rank-1 tensor is a
    list of reals, a sequence tensor is a list of timesteps.  The graph is
    defined over the real numbers; the module [Float32] gives the rounding
    of IEEE 754 binary32, in which the backend evaluates it, for the
    statements that depend on rounding.  Layers whose mathematics lives in
    the host framework (recurrent cells, batch normalisation, dropout) enter
    as section variables, each a function of its weights and its input as
    at prediction time; everything the Python file itself writes down is
    defined here. *)

From Stdlib Require Import Reals Lra Lia List Bool.
From stdpp Require Import gmap strings.
Import ListNotations.
Open Scope R_scope.

(** ** Backend primitives ([from keras import backend as K]) *)

Module K.

Abbreviation vec := (list R).
Abbreviation seqt := (list (list R)).

(** [K.sum(v, axis=-1)] *)
Fixpoint sum (v : vec) : R :=
  match v with
  | [] => 0
  | a :: v' => a + sum v'
  end.

(** [x * y] on two tensors of the same shape *)
Fixpoint mul (x y : vec) : vec :=
  match x, y with
  | a :: x', b :: y' => a * b :: mul x' y'
  | _, _ => []
  end.

(** [x + y] on two tensors of the same shape *)
Fixpoint add (x y : vec) : vec :=
  match x, y with
  | a :: x', b :: y' => a + b :: add x' y'
  | _, _ => []
  end.

(** [c - v] with a scalar on the left *)
Definition rsub (c : R) (v : vec) : vec := map (fun a => c - a) v.

(** [K.square] *)
Definition square (v : vec) : vec := map Rsqr v.

(** [K.maximum(v, c)] with a scalar second argument *)
Definition maximum (v : vec) (c : R) : vec := map (fun a => Rmax a c) v.

(** [K.mean] over every entry *)
Definition mean (v : vec) : R := sum v / INR (length v).

(** The guard of [tf.nn.l2_normalize], to which [K.l2_normalize]
    forwards: [epsilon=1e-12]. *)
Definition epsilon : R := / 10 ^ 12.

(** [K.l2_normalize(x, axis=-1)]:
    [x * rsqrt(maximum(sum(square(x)), epsilon))] *)
Definition l2_normalize (x : vec) : vec :=
  let inv_norm := / sqrt (Rmax (sum (square x)) epsilon) in
  map (fun a => a * inv_norm) x.

(** [K.int_shape(t)[-1]] of a sequence tensor *)
Definition int_shape_last (t : seqt) : nat := length (List.hd [] t).

(** [concatenate(ts)] along the last axis *)
Definition concatenate (ts : list vec) : vec := concat ts.

End K.

(** Mathematical vocabulary used by the statements. *)

Definition dot (x y : K.vec) : R := K.sum (K.mul x y).
Definition sumsq (x : K.vec) : R := K.sum (K.square x).
Definition norm2 (x : K.vec) : R := sqrt (sumsq x).


(** ** Framework layers ([keras.layers]) with closed-form definitions *)

Module Layers.

(** Weights of a [Dense] layer: column [j] of the kernel and entry [j]
    of the bias. *)
Record dense_w : Type := { kernel : nat -> K.vec; bias : nat -> R }.

(** [Dense(units, activation=...)(x)] on the last axis *)
Definition Dense (units : nat) (activation : R -> R) (w : dense_w)
    (x : K.vec) : K.vec :=
  map (fun j => activation (dot x (kernel w j) + bias w j)) (seq 0 units).

Definition linear (x : R) : R := x.
Definition relu (x : R) : R := Rmax x 0.
Definition sigmoid (x : R) : R := / (1 + exp (- x)).

(** [LeakyReLU()], slope 0.3 on the negative side *)
Definition LeakyReLU (x : R) : R := Rmax x 0 - 3 / 10 * Rmax (- x) 0.

(** [Activation("softmax")] on the last axis *)
Definition softmax (v : K.vec) : K.vec :=
  let e := map exp v in map (fun a => a / K.sum e) e.

(** [Embedding(...)(inp)]: one table row per token id *)
Definition Embedding (table : nat -> K.vec) (inp : list nat) : K.seqt :=
  map table inp.

(** Feature [j] along the time axis *)
Definition column (j : nat) (t : K.seqt) : K.vec :=
  map (fun row => nth j row 0) t.

Definition reduce_time (f : K.vec -> R) (t : K.seqt) : K.vec :=
  map (fun j => f (column j t)) (seq 0 (K.int_shape_last t)).

(** [K.max] of a non-empty vector *)
Definition vmax (v : K.vec) : R :=
  match v with
  | [] => 0
  | a :: v' => fold_left Rmax v' a
  end.

(** [GlobalAveragePooling1D()] and [GlobalMaxPooling1D()] *)
Definition GlobalAveragePooling1D (t : K.seqt) : K.vec :=
  reduce_time K.mean t.
Definition GlobalMaxPooling1D (t : K.seqt) : K.vec :=
  reduce_time vmax t.

(** Timestep-wise concatenation of two sequence tensors *)
Fixpoint concat_steps (a b : K.seqt) : K.seqt :=
  match a, b with
  | r :: a', q :: b' => (r ++ q) :: concat_steps a' b'
  | _, _ => []
  end.

(** [Bidirectional(layer)] with [return_sequences=True] and the default
    [merge_mode='concat']: the backward copy reads the sequence reversed
    and its outputs are put back in input order. *)
Definition Bidirectional {W : Type} (layer : W -> K.seqt -> K.seqt)
    (wf wb : W) (t : K.seqt) : K.seqt :=
  concat_steps (layer wf t) (rev (layer wb (rev t))).

End Layers.

(** ** The helper methods of [QAMemnet] *)

Module Helpers.

(** [pairwise_mul] *)
Definition pairwise_mul (vests : K.vec * K.vec) : K.vec :=
  let '(x, y) := vests in K.mul x y.

(** [last_timestep]: [vests[:, -1, :]] *)
Definition last_timestep (vests : K.seqt) : K.vec := List.last vests [].

(** [last_timestep_rev] *)
Definition last_timestep_rev (vests : K.seqt) : K.vec :=
  let rdim := (K.int_shape_last vests / 2)%nat in
  K.concatenate [firstn rdim (List.last vests []);
                 skipn rdim (List.hd [] vests)].

(** [cosine_similarity]; [keepdims=True] leaves a one-entry vector *)
Definition cosine_similarity (vests : K.vec * K.vec) : K.vec :=
  let '(x, y) := vests in
  let x := K.l2_normalize x in
  let y := K.l2_normalize y in
  [K.sum (K.mul x y)].

(** [contrastive_loss]; [y_true] and [y_pred] hold one entry per example *)
Definition margin : R := 1.

Definition contrastive_terms (y_true y_pred : K.vec) : K.vec :=
  K.add (K.mul (K.rsub 1 y_true) (K.square y_pred))
        (K.mul y_true (K.square (K.maximum (K.rsub margin y_pred) 0))).

Definition contrastive_loss (y_true y_pred : K.vec) : R :=
  K.mean (contrastive_terms y_true y_pred).

End Helpers.

(** ** Single precision

    The backend computes in IEEE 754 binary32 ([floatx] is [float32]):
    24 significant bits, smallest exponent -149, round to nearest with ties
    to even.  [round] is that rounding as a function on the reals; results
    beyond the largest finite number are not represented. *)

Module Float32.

Definition bpow (e : Z) : R := powerRZ 2 e.

(** The exponent [e] with [2 ^ (e - 1) <= |x| < 2 ^ e], for nonzero [x] *)
Definition mag (x : R) : Z := (Int_part (ln (Rabs x) / ln 2) + 1)%Z.

(** The exponent of the last place of [x] *)
Definition cexp (x : R) : Z := Z.max (mag x - 24) (-149).

Definition nearest_even (x : R) : Z :=
  let f := Int_part x in
  if Rlt_dec (x - IZR f) (1 / 2) then f
  else if Rlt_dec (1 / 2) (x - IZR f) then (f + 1)%Z
  else if Z.even f then f else (f + 1)%Z.

Definition round (x : R) : R :=
  IZR (nearest_even (x * bpow (- cexp x))) * bpow (cexp x).

Definition add (x y : R) : R := round (x + y).
Definition sub (x y : R) : R := round (x - y).
Definition mul (x y : R) : R := round (x * y).
Definition div (x y : R) : R := round (x / y).

(** [sigmoid] of a logit, [1 / (1 + exp(-x))], every operation rounded *)
Definition sigmoid (x : R) : R := div 1 (add 1 (round (exp (- x)))).

(** The summand of [contrastive_loss] for one example with label [t] and
    score [p], every operation rounded *)
Definition example_loss (t p : R) : R :=
  let hinge := Rmax (sub Helpers.margin p) 0 in
  add (mul (sub 1 t) (mul p p)) (mul t (mul hinge hinge)).

End Float32.

(** ** Exceptions raised while a graph is built or a method runs *)

(** [FrameworkError] stands for an exception of the framework whose
    class this file does not determine. *)
Inductive exn : Type :=
| TypeError
| UnboundLocalError
| AssertionError
| ValueError
| AttributeError
| InvalidArgumentError
| FrameworkError
| OSError.

Definition result (A : Type) : Type := (exn + A)%type.
Definition Ok {A : Type} (a : A) : result A := inr a.
Definition Raise {A : Type} (e : exn) : result A := inl e.

Definition bind {A B : Type} (m : result A) (k : A -> result B) : result B :=
  match m with
  | inl e => inl e
  | inr a => k a
  end.

Notation "'try' x <- m 'in' k" := (bind m (fun x => k))
  (at level 10, x name, m at level 100, k at level 200).

(** ** The network of [QAMemnet] *)

Inductive cell_kind : Type := CuDNNLSTM | LSTM | CuDNNGRU | GRU.

(** The choice of [Cell] at the top of [build_rnn_encoder] *)
Definition select_cell (lstm cudnn : bool) : cell_kind :=
  if lstm then (if cudnn then CuDNNLSTM else LSTM)
  else (if cudnn then CuDNNGRU else GRU).

(** What [Model(...)] was given as [outputs]; a symbolic tensor is a
    function of the model's input. *)
Inductive model_out : Type :=
| OutList (ts : list (K.seqt -> K.vec))
| OutVec (t : K.seqt -> K.vec)
| OutSeq (t : K.seqt -> K.seqt).

(** The attributes [__init__] stores on [self]. *)
Record config : Type := {
  voc_siz : option nat;
  emb_dim : nat;
  bdr : bool;
  pool : bool;
  cudnn : bool;
  dsn : bool;
  dsl : nat;
  dsd : nat;
  dsp : R;
  edp : R;
  rdp : R;
  dropout : R;
  lstm_dim : nat;
  seq_len : nat;
  layers : nat;
  dlrs : nat
}.

(** [self.dense_dim] as [__init__] computes it *)
Definition dense_dim (self : config) : nat :=
  let d := lstm_dim self in
  let d := if pool self then (d * 3)%nat else d in
  if bdr self then (d * 2)%nat else d.

Section Network.

(** Layers whose arithmetic belongs to the framework.  [Cell kind units
    dropout recurrent_dropout] is a recurrent layer with
    [return_sequences=True]; it maps a sequence to the sequence of its
    states. *)
Variable cell_w : Type.
Variable Cell : cell_kind -> nat -> R -> R -> cell_w -> K.seqt -> K.seqt.
Variable bn_w : Type.
Variable BatchNormalization : bn_w -> K.vec -> K.vec.
Variable Dropout : R -> K.vec -> K.vec.

(** [self.build_deep_sim_net] is not defined in this file; [None] stands
    for an attribute that cannot be resolved. *)
Variable build_deep_sim_net :
  option (nat -> nat -> R -> K.vec * K.vec -> K.vec).

(** Trainable parameters, one entry per layer instance. *)
Record weights : Type := {
  embedding : nat -> K.vec;
  emb_transform : Layers.dense_w;
  emb_weight : nat -> K.vec;
  rnn_fw : nat -> cell_w;
  rnn_bw : nat -> cell_w;
  merge_bn : bn_w;
  merge_dense : nat -> Layers.dense_w;
  fc1_w : Layers.dense_w;
  relevance : Layers.dense_w
}.

(** [build_embedder], as the function the embedding model computes on a
    sequence of [seqlen] token ids below [voc_siz]; the two [Embedding]
    branches differ in the [trainable] flag only.  Without a [voc_siz] the
    layer cannot be created: see [get_qa_memnet_model]. *)
Definition build_embedder (w : weights) (seqlen : nat)
    (voc_siz : option nat) (weighted transformed : bool) (emb_dim : nat)
    (inp : list nat) : K.seqt :=
  let enc :=
    match voc_siz with
    | Some _ => Layers.Embedding (embedding w) inp
    | None => Layers.Embedding (embedding w) inp
    end in
  let act :=
    if transformed then
      let trf :=
        map (Layers.Dense emb_dim Layers.linear (emb_transform w)) enc in
      map (map Layers.LeakyReLU) trf
    else enc in
  if weighted then
    let wwt := Layers.Embedding (emb_weight w) inp in
    let wac := map (fun a => [a]) (Layers.softmax (concat wwt)) in
    map Helpers.pairwise_mul
        (combine act (map (fun g => repeat (List.hd 0 g) emb_dim) wac))
  else act.

(** One pass of the loop [for li in range(layers)] in
    [build_rnn_encoder]: the new [rnn] and the new [get_last_step]. *)
Definition rnn_layer (bidirectional : bool) (lstm_dim : nat) (rdp dp : R)
    (kind : cell_kind) (cudnn : bool) (w : weights) (li : nat)
    (rnn : K.seqt -> K.seqt)
  : (K.seqt -> K.seqt) * option (K.seqt -> K.vec) :=
  if bidirectional then
    (fun inp =>
       Layers.Bidirectional (Cell kind lstm_dim 0 0)
         (rnn_fw w li) (rnn_bw w li) (rnn inp),
     Some Helpers.last_timestep_rev)
  else
    (if cudnn then
       fun inp => Cell kind lstm_dim 0 0 (rnn_fw w li) (rnn inp)
     else
       fun inp => Cell kind lstm_dim dp rdp (rnn_fw w li) (rnn inp),
     Some Helpers.last_timestep).

Definition rnn_loop (bidirectional : bool) (lstm_dim : nat) (rdp dp : R)
    (kind : cell_kind) (cudnn : bool) (w : weights) (layers : nat)
  : (K.seqt -> K.seqt) * option (K.seqt -> K.vec) :=
  fold_left
    (fun st li =>
       rnn_layer bidirectional lstm_dim rdp dp kind cudnn w li (fst st))
    (seq 0 layers)
    (fun inp => inp, None).

(** [build_rnn_encoder].  [get_last_step] is bound inside the loop
    only, so reading it after zero passes raises. *)
Definition build_rnn_encoder (w : weights) (return_sequences : bool)
    (bidirectional : bool) (lstm_dim : nat) (rdp dp : R) (layers : nat)
    (lstm cudnn use_pool : bool) : result model_out :=
  let '(rnn, get_last_step) :=
    rnn_loop bidirectional lstm_dim rdp dp (select_cell lstm cudnn) cudnn w
      layers in
  if negb return_sequences && use_pool then
    match get_last_step with
    | None => Raise UnboundLocalError
    | Some get_last_step =>
        let last := fun inp => get_last_step (rnn inp) in
        let mean := fun inp => Layers.GlobalAveragePooling1D (rnn inp) in
        let maxp := fun inp => Layers.GlobalMaxPooling1D (rnn inp) in
        let sms := [last; mean; maxp] in
        Ok (OutList
              ([fun inp => K.concatenate (map (fun t => t inp) sms)]
               ++ sms))
    end
  else if negb return_sequences then
    match get_last_step with
    | None => Raise UnboundLocalError
    | Some get_last_step => Ok (OutVec (fun inp => get_last_step (rnn inp)))
    end
  else Ok (OutSeq rnn).

(** [dense_comb], the local function of [get_qa_memnet_model] *)
Definition dense_comb (self : config) (w : weights) (layers : nat)
    (inputs : K.vec * K.vec) : K.vec :=
  let '(inp1, inp2) := inputs in
  let cnc1 := K.concatenate [inp1; inp2] in
  let bnr1 := BatchNormalization (merge_bn w) cnc1 in
  let drp1 := Dropout (dropout self) bnr1 in
  fold_left
    (fun dns1 i =>
       Layers.Dense (dense_dim self) Layers.relu (merge_dense w i) dns1)
    (seq 0 layers)
    drp1.

(** The tensors [get_qa_memnet_model] names, for one example. *)
Record tensors : Type := {
  enc_ctx : K.vec; c1 : K.vec; c2 : K.vec; c3 : K.vec;
  enc_rpl : K.vec; r1 : K.vec; r2 : K.vec; r3 : K.vec;
  enc_ctx_cond : K.vec;
  sims : K.vec;
  fc1 : K.vec;
  fc2 : K.vec
}.

(** The body of [get_qa_memnet_model] from [emb_ctx] on, given the four
    outputs [o0 .. o3] of the shared encoder. *)
Definition relevance_graph (self : config) (w : weights)
    (o0 o1 o2 o3 : K.seqt -> K.vec) (inp_ctx inp_rpl : list nat)
  : tensors :=
  let embedder :=
    build_embedder w (seq_len self) (voc_siz self) false false
      (emb_dim self) in
  let dm := dense_comb self w (dlrs self) in
  let emb_ctx := embedder inp_ctx in
  let emb_rpl := embedder inp_rpl in
  let '(enc_ctx, c1, c2, c3) :=
    (o0 emb_ctx, o1 emb_ctx, o2 emb_ctx, o3 emb_ctx) in
  let '(enc_rpl, r1, r2, r3) :=
    (o0 emb_rpl, o1 emb_rpl, o2 emb_rpl, o3 emb_rpl) in
  let sims :=
    [Helpers.cosine_similarity (enc_ctx, enc_rpl);
     Helpers.cosine_similarity (c1, r1);
     Helpers.cosine_similarity (c1, r2);
     Helpers.cosine_similarity (c1, r3);
     Helpers.cosine_similarity (c2, r1);
     Helpers.cosine_similarity (c2, r2);
     Helpers.cosine_similarity (c2, r3);
     Helpers.cosine_similarity (c3, r1);
     Helpers.cosine_similarity (c3, r2);
     Helpers.cosine_similarity (c3, r3)] in
  let enc_ctx' := dm (enc_ctx, enc_rpl) in
  let sims :=
    if dsn self then sims
    else sims ++ [Helpers.cosine_similarity (enc_ctx', enc_rpl)] in
  let sims := K.concatenate sims in
  let fc1 := Layers.Dense 16 Layers.relu (fc1_w w) sims in
  let fc2 := Layers.Dense 1 Layers.sigmoid (relevance w) fc1 in
  {| enc_ctx := enc_ctx; c1 := c1; c2 := c2; c3 := c3;
     enc_rpl := enc_rpl; r1 := r1; r2 := r2; r3 := r3;
     enc_ctx_cond := enc_ctx'; sims := sims; fc1 := fc1; fc2 := fc2 |}.

(** [get_qa_memnet_model]: the graph as a function of the two token
    sequences, or the exception its construction raises, in the order of
    the statements of the method:
    - [build_embedder] creates [Embedding(voc_siz, ...)], which needs a
      number: [TypeError] while [voc_siz] is [None];
    - [build_rnn_encoder] raises with no recurrent layer, and the
      framework refuses recurrent layers of zero units;
    - [dense_comb] reads [encoder_ctx.output_shape[0]], the shape of the
      first output when there are several and [None] (the batch axis) when
      there is one, and [Input(shape=None)] fails its assertion;
    - unpacking the encoder's result into four names needs four outputs;
    - with [dsn] set the deep similarity net is built and its result [css]
      is not used afterwards; otherwise the conditioned representation is
      compared with the reply's, and with no dense layer in the merge head
      it has twice the reply's width, which [x * y] in
      [cosine_similarity] refuses. *)
Definition get_qa_memnet_model (self : config) (w : weights)
  : result (list nat -> list nat -> tensors) :=
  try embedder <-
    (match voc_siz self with
     | Some _ => Ok tt
     | None => Raise TypeError
     end) in
  try encoder_ctx <-
    build_rnn_encoder w false (bdr self) (lstm_dim self) (rdp self)
      (edp self) (layers self) true (cudnn self) (pool self) in
  try units <-
    (if Nat.eqb (lstm_dim self) 0 then Raise FrameworkError else Ok tt) in
  match encoder_ctx with
  | OutList [o0; o1; o2; o3] =>
      try css <-
        (if dsn self then
           match build_deep_sim_net with
           | Some _ => Ok tt
           | None => Raise AttributeError
           end
         else if Nat.eqb (dlrs self) 0 then Raise ValueError
         else Ok tt) in
      Ok (relevance_graph self w o0 o1 o2 o3)
  | OutList _ => Raise ValueError
  | OutVec _ | OutSeq _ => Raise AssertionError
  end.

(** *** The object behind [train_on_batch], [predict_score_on_batch],
    [load] and [save]

    Networks are mutable objects: a reference is a location in a heap of
    weight assignments, and the weight files live in a map from paths. *)

Definition loc : Type := nat.

Record world : Type := {
  heap : gmap loc weights;
  files : gmap string weights
}.

(** The attributes of an instance that the four methods read.
    [__init__] binds [self.model]; it binds no [obj_model] and does not
    run the constructor of the base class [SiameseNetwork], so
    [obj_model] is whatever attribute lookup finds on the class
    ([None]: nothing). *)
Record instance : Type := {
  self_config : config;
  model : loc;
  obj_model : option loc
}.

(** What [Model.train_on_batch] does with the compiled loss: new weights
    and the reported metrics. *)
Variable fit_batch :
  (K.vec -> K.vec -> R) -> (weights -> list nat -> list nat -> K.vec) ->
  weights -> list (list nat * list nat) -> K.vec -> weights * K.vec.

Definition __init__ (cfg : config) (w0 : weights)
    (class_obj_model : option loc) (wd : world)
  : result (instance * world) :=
  try graph <- get_qa_memnet_model cfg w0 in
  let l := fresh (dom (heap wd)) in
  Ok ({| self_config := cfg; model := l; obj_model := class_obj_model |},
      {| heap := <[l := w0]> (heap wd); files := files wd |}).

Definition load (self : instance) (load_path : string) (wd : world)
  : result world :=
  match obj_model self with
  | None => Raise AttributeError
  | Some l =>
      match heap wd !! l, files wd !! load_path with
      | Some _, Some w =>
          Ok {| heap := <[l := w]> (heap wd); files := files wd |}
      | Some _, None => Raise OSError
      | None, _ => Raise AttributeError
      end
  end.

Definition save (self : instance) (save_path : string) (wd : world)
  : result world :=
  match obj_model self with
  | None => Raise AttributeError
  | Some l =>
      match heap wd !! l with
      | Some w =>
          Ok {| heap := heap wd; files := <[save_path := w]> (files wd) |}
      | None => Raise AttributeError
      end
  end.

(** A batch is the pair of the context rows and the reply rows.  Before
    the graph runs, [Model.train_on_batch] and [Model.predict_on_batch]
    compare every array with the shape of its input: each row holds
    [seq_len] token ids. *)
Definition check_input_shapes (self : config)
    (batch : list (list nat) * list (list nat)) : result unit :=
  if forallb (fun row => Nat.eqb (length row) (seq_len self))
       (fst batch ++ snd batch)
  then Ok tt
  else Raise ValueError.

(** [Model.train_on_batch] also wants as many context rows, reply rows and
    labels. *)
Definition check_array_lengths
    (batch : list (list nat) * list (list nat)) (y : K.vec) : result unit :=
  if Nat.eqb (length (fst batch)) (length (snd batch))
     && Nat.eqb (length (fst batch)) (length y)
  then Ok tt
  else Raise ValueError.

(** While the graph runs, the embedding lookup needs every token id below
    [voc_siz] and the merge head concatenates a context row with a reply
    row, so both sides need the same number of rows. *)
Definition rows (self : config) (batch : list (list nat) * list (list nat))
  : result (list (list nat * list nat)) :=
  let known :=
    match voc_siz self with
    | Some v =>
        forallb (forallb (fun i => Nat.ltb i v)) (fst batch ++ snd batch)
    | None => false
    end in
  if Nat.eqb (length (fst batch)) (length (snd batch)) && known
  then Ok (combine (fst batch) (snd batch))
  else Raise InvalidArgumentError.

Definition train_on_batch (self : instance)
    (batch : list (list nat) * list (list nat)) (y : K.vec) (wd : world)
  : result (K.vec * world) :=
  match heap wd !! model self with
  | None => Raise AttributeError
  | Some w =>
      try shapes <- check_input_shapes (self_config self) batch in
      try lengths <- check_array_lengths batch y in
      try xs <- rows (self_config self) batch in
      let forward := fun w' c r =>
        match get_qa_memnet_model (self_config self) w' with
        | inr m => fc2 (m c r)
        | inl _ => []
        end in
      let '(w', loss) :=
        fit_batch Helpers.contrastive_loss forward w xs y in
      Ok (loss,
          {| heap := <[model self := w']> (heap wd); files := files wd |})
  end.

Definition predict_score_on_batch (self : instance)
    (batch : list (list nat) * list (list nat)) (wd : world)
  : result (list K.vec) :=
  match heap wd !! model self with
  | None => Raise AttributeError
  | Some w =>
      try m <- get_qa_memnet_model (self_config self) w in
      try shapes <- check_input_shapes (self_config self) batch in
      try xs <- rows (self_config self) batch in
      Ok (map (fun '(c, r) => fc2 (m c r)) xs)
  end.

End Network.

(** ** Vocabulary of the statements *)

(** The last [d] entries of a vector. *)
Definition lastn (d : nat) (row : K.vec) : K.vec :=
  skipn (length row - d) row.

(** The value [get_last_step] holds after a pass of the encoder loop. *)
Definition get_last_step_of (bidirectional : bool) : K.seqt -> K.vec :=
  if bidirectional then Helpers.last_timestep_rev
  else Helpers.last_timestep.

(** The summand of [contrastive_loss] for one example. *)
Definition example_loss (t p : R) : R :=
  (1 - t) * Rsqr p + t * Rsqr (Rmax (Helpers.margin - p) 0).

(** The merge head in the words of the specification: [n] dense layers of
    a given width, each followed by ReLU, numbered from [i]. *)
Fixpoint dense_relu_stack (width : nat) (ws : nat -> Layers.dense_w)
    (n i : nat) (v : K.vec) : K.vec :=
  match n with
  | O => v
  | S n' =>
      dense_relu_stack width ws n' (S i)
        (Layers.Dense width Layers.relu (ws i) v)
  end.

(** Features per timestep after a recurrent layer of the encoder: a
    bidirectional layer emits the forward and the backward states. *)
Definition feature_width (bidirectional : bool) (lstm_dim : nat) : nat :=
  if bidirectional then (lstm_dim * 2)%nat else lstm_dim.

(** ** A small concrete network

    One recurrent layer of one unit whose state is the constant [h] at
    every step, batch normalisation and dropout in inference mode with
    identity statistics, and dense layers with zero kernels. *)

Module Sample.

Definition Cell (kind : cell_kind) (units : nat) (dp rdp : R) (h : R)
    (t : K.seqt) : K.seqt :=
  map (fun _ => repeat h units) t.

Definition BatchNormalization (w : unit) (v : K.vec) : K.vec := v.

Definition Dropout (rate : R) (v : K.vec) : K.vec := v.

Definition zero_dense : Layers.dense_w :=
  {| Layers.kernel := fun _ => []; Layers.bias := fun _ => 0 |}.

Definition w (h : R) : weights R unit :=
  {| embedding := fun _ => [0];
     emb_transform := zero_dense;
     emb_weight := fun _ => [1];
     rnn_fw := fun _ => h;
     rnn_bw := fun _ => h;
     merge_bn := tt;
     merge_dense := fun _ => zero_dense;
     fc1_w := zero_dense;
     relevance := zero_dense |}.

Definition cfg (layers : nat) : config :=
  {| voc_siz := Some 1%nat; emb_dim := 1; bdr := false; pool := true;
     cudnn := true; dsn := false; dsl := 2; dsd := 1; dsp := 0;
     edp := 0; rdp := 0; dropout := 0; lstm_dim := 1; seq_len := 1;
     layers := layers; dlrs := 1 |}.

Definition get_model (layers : nat) (h : R)
  : result (list nat -> list nat -> tensors) :=
  get_qa_memnet_model R Cell unit BatchNormalization Dropout None
    (cfg layers) (w h).

(** [QAMemnet(...)] in a process that holds no other network and no
    weight file; the class offers no [obj_model]. *)
Definition new : result (instance * world R unit) :=
  __init__ R Cell unit BatchNormalization Dropout None (cfg 1) (w 0) None
    {| heap := ∅; files := ∅ |}.

End Sample.

(** ** Further sample objects *)

Module Fixtures.

(** The sample configuration with [dsn] set. *)
Definition cfg_dsn : config :=
  {| voc_siz := Some 1%nat; emb_dim := 1; bdr := false; pool := true;
     cudnn := true; dsn := true; dsl := 2; dsd := 1; dsp := 0;
     edp := 0; rdp := 0; dropout := 0; lstm_dim := 1; seq_len := 1;
     layers := 1; dlrs := 1 |}.

(** A deep similarity net that can be resolved; its output is one
    scalar. *)
Definition deep_sim_net
  : option (nat -> nat -> R -> K.vec * K.vec -> K.vec) :=
  Some (fun _ _ _ _ => [0]).

(** The sample weights with the bias [b] in every merge layer. *)
Definition w_merge (b : R) : weights R unit :=
  {| embedding := fun _ => [0];
     emb_transform := Sample.zero_dense;
     emb_weight := fun _ => [1];
     rnn_fw := fun _ => 1;
     rnn_bw := fun _ => 1;
     merge_bn := tt;
     merge_dense :=
       fun _ => {| Layers.kernel := fun _ => []; Layers.bias := fun _ => b |};
     fc1_w := Sample.zero_dense;
     relevance := Sample.zero_dense |}.

(** Weights whose embedding table has two entries per token and whose
    per-token weight table still holds its initial ones. *)
Definition w_emb : weights R unit :=
  {| embedding := fun i => [INR i; 1];
     emb_transform := Sample.zero_dense;
     emb_weight := fun _ => [1];
     rnn_fw := fun _ => 1;
     rnn_bw := fun _ => 1;
     merge_bn := tt;
     merge_dense := fun _ => Sample.zero_dense;
     fc1_w := Sample.zero_dense;
     relevance := Sample.zero_dense |}.

(** The sample weights with the bias [b] in the relevance unit. *)
Definition w_relevance (b : R) : weights R unit :=
  {| embedding := fun _ => [0];
     emb_transform := Sample.zero_dense;
     emb_weight := fun _ => [1];
     rnn_fw := fun _ => 1;
     rnn_bw := fun _ => 1;
     merge_bn := tt;
     merge_dense := fun _ => Sample.zero_dense;
     fc1_w := Sample.zero_dense;
     relevance :=
       {| Layers.kernel := fun _ => []; Layers.bias := fun _ => b |} |}.



End Fixtures.

(** ** Facts about the backend primitives *)

Lemma sumsq_cons (a : R) (x : K.vec) : sumsq (a :: x) = a * a + sumsq x.
Proof. reflexivity. Qed.

Lemma dot_cons (a b : R) (x y : K.vec) :
  dot (a :: x) (b :: y) = a * b + dot x y.
Proof. reflexivity. Qed.

Lemma dot_nil_r (x : K.vec) : dot x [] = 0.
Proof. destruct x; reflexivity. Qed.


Lemma sumsq_nonneg (x : K.vec) : 0 <= sumsq x.
Proof.
  induction x as [|a x IH]; [cbn; lra|].
  rewrite sumsq_cons. nra.
Qed.

Lemma epsilon_pos : 0 < K.epsilon.
Proof. unfold K.epsilon. apply Rinv_0_lt_compat. lra. Qed.

Lemma guard_pos (x : K.vec) : 0 < Rmax (sumsq x) K.epsilon.
Proof.
  pose proof epsilon_pos. pose proof (Rmax_r (sumsq x) K.epsilon). lra.
Qed.

Lemma dot_scaled (c d : R) (x y : K.vec) :
  dot (map (fun a => a * c) x) (map (fun b => b * d) y)
  = dot x y * (c * d).
Proof.
  revert y.
  induction x as [|a x IH]; intros [|b y]; cbn [map];
    rewrite ?dot_nil_r, ?dot_cons; try (cbn; lra).
  rewrite IH. lra.
Qed.

(** Cauchy-Schwarz on the entries two vectors share. *)
Lemma cauchy_schwarz (x y : K.vec) :
  dot x y * dot x y <= sumsq x * sumsq y.
Proof.
  revert y.
  induction x as [|a x IH]; intros y.
  - pose proof (sumsq_nonneg y). cbn. lra.
  - destruct y as [|b y].
    + rewrite dot_nil_r. pose proof (sumsq_nonneg (a :: x)).
      cbn [sumsq K.sum K.square map] in *. lra.
    + specialize (IH y). rewrite dot_cons, !sumsq_cons.
      pose proof (sumsq_nonneg x) as HX. pose proof (sumsq_nonneg y) as HY.
      set (d := dot x y) in *.
      set (X := sumsq x) in *. set (Y := sumsq y) in *.
      assert (Hm : 2 * (a * b) * d <= a * a * Y + b * b * X).
      { destruct (Rle_dec (2 * (a * b) * d) 0) as [Hn|Hp].
        - nra.
        - apply Rnot_le_lt in Hp.
          apply Rsqr_incr_0_var; [|nra].
          unfold Rsqr.
          assert (H1 : (a * b) * (a * b) * (d * d)
                       <= (a * b) * (a * b) * (X * Y)).
          { apply Rmult_le_compat_l; [nra | exact IH]. }
          pose proof (Rle_0_sqr (a * a * Y - b * b * X)) as H2.
          unfold Rsqr in H2. nra. }
      nra.
Qed.

(** ** Rounding to single precision *)

Lemma Int_part_eq (x : R) (z : Z) : IZR z <= x < IZR z + 1 -> Int_part x = z.
Proof. intros H. symmetry. apply Int_part_spec. lra. Qed.

Lemma nearest_even_low (x : R) (z : Z) :
  IZR z <= x < IZR z + 1 / 2 -> Float32.nearest_even x = z.
Proof.
  intros H. unfold Float32.nearest_even.
  rewrite (Int_part_eq x z) by lra.
  destruct (Rlt_dec (x - IZR z) (1 / 2)); [reflexivity|lra].
Qed.

Lemma nearest_even_high (x : R) (z : Z) :
  IZR z + 1 / 2 < x < IZR z + 1 -> Float32.nearest_even x = (z + 1)%Z.
Proof.
  intros H. unfold Float32.nearest_even.
  rewrite (Int_part_eq x z) by lra.
  destruct (Rlt_dec (x - IZR z) (1 / 2)); [lra|].
  destruct (Rlt_dec (1 / 2) (x - IZR z)); [reflexivity|lra].
Qed.

Lemma nearest_even_range (x : R) :
  0 <= x -> 0 <= IZR (Float32.nearest_even x) <= x + 1.
Proof.
  intros Hx. destruct (base_Int_part x) as [H1 H2].
  assert (H0 : (0 <= Int_part x)%Z).
  { assert (H : IZR (-1) < IZR (Int_part x)) by lra.
    apply lt_IZR in H. lia. }
  apply IZR_le in H0.
  unfold Float32.nearest_even.
  destruct (Rlt_dec _ _); [lra|].
  destruct (Rlt_dec _ _); [rewrite plus_IZR; lra|].
  destruct (Z.even _); [lra|rewrite plus_IZR; lra].
Qed.

Lemma bpow_pos (e : Z) : 0 < Float32.bpow e.
Proof. apply powerRZ_lt. lra. Qed.

Lemma bpow_nat (n : nat) : Float32.bpow (Z.of_nat n) = 2 ^ n.
Proof. unfold Float32.bpow. symmetry. apply pow_powerRZ. Qed.

Lemma bpow_opp (e : Z) : Float32.bpow (- e) = / Float32.bpow e.
Proof. unfold Float32.bpow. apply powerRZ_neg'. Qed.

Lemma bpow_add (a b : Z) :
  Float32.bpow (a + b) = Float32.bpow a * Float32.bpow b.
Proof. unfold Float32.bpow. apply powerRZ_add. lra. Qed.

Lemma bpow_le (a b : Z) : (a <= b)%Z -> Float32.bpow a <= Float32.bpow b.
Proof.
  intros H. replace b with (a + Z.of_nat (Z.to_nat (b - a)))%Z by lia.
  rewrite bpow_add, bpow_nat.
  pose proof (bpow_pos a) as Ha.
  assert (1 <= 2 ^ Z.to_nat (b - a)) by (apply pow_R1_Rle; lra).
  nra.
Qed.

Lemma bpow_of_nat (e : Z) (n : nat) :
  e = Z.of_nat n -> Float32.bpow e = 2 ^ n.
Proof. intros ->. apply bpow_nat. Qed.

Lemma bpow_of_opp_nat (e : Z) (n : nat) :
  e = (- Z.of_nat n)%Z -> Float32.bpow e = / 2 ^ n.
Proof. intros ->. rewrite bpow_opp, bpow_nat. reflexivity. Qed.

Lemma ln_2_pos : 0 < ln 2.
Proof. rewrite <- ln_1. apply ln_increasing; lra. Qed.

Lemma ln_bpow (k : Z) : ln (Float32.bpow k) = IZR k * ln 2.
Proof.
  assert (Hn : forall n : nat,
             ln (Float32.bpow (Z.of_nat n)) = INR n * ln 2).
  { intros n. rewrite bpow_nat. apply ln_pow. lra. }
  destruct (Z_le_gt_dec 0 k) as [Hk|Hk].
  - rewrite <- (Z2Nat.id k Hk), Hn, INR_IZR_INZ. reflexivity.
  - assert (Hk' : (0 <= - k)%Z) by lia.
    replace k with (- (- k))%Z at 1 by lia.
    rewrite bpow_opp, ln_Rinv by apply bpow_pos.
    rewrite <- (Z2Nat.id (- k) Hk'), Hn, INR_IZR_INZ, Z2Nat.id by exact Hk'.
    rewrite opp_IZR. lra.
Qed.

Lemma log2_bounds (x : R) (e : Z) :
  0 < x ->
  (Float32.bpow e <= x -> IZR e <= ln x / ln 2)
  /\ (x < Float32.bpow e -> ln x / ln 2 < IZR e).
Proof.
  intros Hx. pose proof ln_2_pos as H2. pose proof (bpow_pos e) as Hb.
  split; intros H.
  - apply Rmult_le_reg_r with (ln 2); [exact H2|].
    unfold Rdiv. rewrite Rmult_assoc, Rinv_l, Rmult_1_r by lra.
    rewrite <- ln_bpow.
    destruct H as [H|H]; [left; now apply ln_increasing|right; now rewrite H].
  - apply Rmult_lt_reg_r with (ln 2); [exact H2|].
    unfold Rdiv. rewrite Rmult_assoc, Rinv_l, Rmult_1_r by lra.
    rewrite <- ln_bpow. now apply ln_increasing.
Qed.

Lemma mag_unique (x : R) (e : Z) :
  Float32.bpow (e - 1) <= x -> x < Float32.bpow e -> Float32.mag x = e.
Proof.
  intros H1 H2. pose proof (bpow_pos (e - 1)) as Hb.
  assert (Hx : 0 < x) by lra.
  unfold Float32.mag. rewrite Rabs_pos_eq by lra.
  destruct (log2_bounds x (e - 1) Hx) as [L1 _].
  destruct (log2_bounds x e Hx) as [_ L2].
  specialize (L1 H1). specialize (L2 H2).
  rewrite (Int_part_eq _ (e - 1)); [lia|].
  rewrite minus_IZR in *. lra.
Qed.

Lemma mag_le (x : R) (e : Z) :
  0 < x -> x < Float32.bpow e -> (Float32.mag x <= e)%Z.
Proof.
  intros Hx H. unfold Float32.mag. rewrite Rabs_pos_eq by lra.
  destruct (log2_bounds x e Hx) as [_ L2]. specialize (L2 H).
  destruct (base_Int_part (ln x / ln 2)) as [B1 _].
  assert (H0 : IZR (Int_part (ln x / ln 2)) < IZR e) by lra.
  apply lt_IZR in H0. lia.
Qed.

Lemma round_0 : Float32.round 0 = 0.
Proof.
  unfold Float32.round. rewrite Rmult_0_l, (nearest_even_low 0 0) by lra. lra.
Qed.

(** Numbers just above 1 round down to 1: the next float is
    [1 + 2 ^ -23]. *)
Lemma round_above_one (t : R) :
  0 <= t < / 2 ^ 24 -> Float32.round (1 + t) = 1.
Proof.
  intros Ht.
  assert (Hm : Float32.mag (1 + t) = 1%Z).
  { apply mag_unique.
    - rewrite (bpow_of_nat (1 - 1) 0) by reflexivity. lra.
    - rewrite (bpow_of_nat 1 1) by reflexivity. lra. }
  unfold Float32.round, Float32.cexp. rewrite Hm.
  change (Z.max (1 - 24) (-149)) with (-23)%Z.
  rewrite (bpow_of_nat (- -23) 23), (bpow_of_opp_nat (-23) 23) by reflexivity.
  rewrite (nearest_even_low _ 8388608) by lra.
  lra.
Qed.

Lemma round_1 : Float32.round 1 = 1.
Proof.
  rewrite <- (round_above_one 0) at 2 by lra. f_equal. lra.
Qed.

(** Numbers just below 1 round up to 1: the float before 1 is
    [1 - 2 ^ -24]. *)
Lemma round_below_one (p : R) :
  0 <= p < / 2 ^ 25 -> Float32.round (1 - p) = 1.
Proof.
  intros Hp. destruct (Req_dec p 0) as [->|Hp0].
  { rewrite <- round_1 at 2. f_equal. lra. }
  assert (Hm : Float32.mag (1 - p) = 0%Z).
  { apply mag_unique.
    - rewrite (bpow_of_opp_nat (0 - 1) 1) by reflexivity. lra.
    - rewrite (bpow_of_nat 0 0) by reflexivity. lra. }
  unfold Float32.round, Float32.cexp. rewrite Hm.
  change (Z.max (0 - 24) (-149)) with (-24)%Z.
  rewrite (bpow_of_nat (- -24) 24), (bpow_of_opp_nat (-24) 24) by reflexivity.
  rewrite (nearest_even_high _ 16777215) by lra.
  change (16777215 + 1)%Z with 16777216%Z.
  lra.
Qed.

(** Small numbers stay small when rounded. *)
Lemma round_small (y : R) :
  0 <= y <= / 2 ^ 30 -> 0 <= Float32.round y < / 2 ^ 24.
Proof.
  intros Hy. destruct (Req_dec y 0) as [->|Hy0]; [rewrite round_0; lra|].
  assert (H0 : 0 < y) by lra.
  assert (Hc : (-149 <= Float32.cexp y <= -53)%Z).
  { unfold Float32.cexp. assert ((Float32.mag y <= -29)%Z); [|lia].
    apply mag_le; [exact H0|].
    rewrite (bpow_of_opp_nat (-29) 29) by reflexivity. lra. }
  unfold Float32.round.
  pose proof (bpow_pos (Float32.cexp y)) as Hb.
  pose proof (bpow_pos (- Float32.cexp y)) as Hb'.
  assert (Hinv : Float32.bpow (- Float32.cexp y) * Float32.bpow (Float32.cexp y)
                 = 1).
  { rewrite <- bpow_add.
    replace (- Float32.cexp y + Float32.cexp y)%Z with 0%Z by lia.
    reflexivity. }
  assert (Hle : Float32.bpow (Float32.cexp y) <= / 2 ^ 53).
  { rewrite <- (bpow_of_opp_nat (-53) 53) by reflexivity. apply bpow_le. lia. }
  destruct (nearest_even_range (y * Float32.bpow (- Float32.cexp y)))
    as [N0 N1]; [nra|].
  set (n := IZR (Float32.nearest_even (y * Float32.bpow (- Float32.cexp y))))
    in *.
  split; [nra|].
  assert (n * Float32.bpow (Float32.cexp y)
          <= y + Float32.bpow (Float32.cexp y)) by nra.
  lra.
Qed.

Lemma exp_opp_small (x : R) : 100 <= x -> exp (- x) <= / 2 ^ 30.
Proof.
  intros Hx.
  assert (H1 : 2 <= exp 1).
  { pose proof (exp_ineq1_le 1). lra. }
  assert (Hn : forall n : nat, 2 ^ n <= exp (INR n)).
  { induction n as [|n IH].
    - simpl. rewrite exp_0. lra.
    - rewrite S_INR, exp_plus. simpl pow.
      assert (0 < 2 ^ n) by (apply pow_lt; lra).
      nra. }
  specialize (Hn 100%nat).
  replace (INR 100) with 100 in Hn by (rewrite INR_IZR_INZ; reflexivity).
  assert (Hm : exp 100 <= exp x).
  { destruct Hx as [Hx|<-]; [left; now apply exp_increasing|].
    right; reflexivity. }
  rewrite exp_Ropp.
  apply Rinv_le_contravar; [apply pow_lt; lra|].
  assert (2 ^ 30 <= 2 ^ 100) by (apply Rle_pow; [lra|lia]).
  lra.
Qed.

(** From the logit 100 on, the sigmoid is exactly 1 in single
    precision. *)
Lemma float32_sigmoid_saturated (x : R) : 100 <= x -> Float32.sigmoid x = 1.
Proof.
  intros Hx. unfold Float32.sigmoid, Float32.div, Float32.add.
  pose proof (exp_opp_small x Hx) as He.
  pose proof (exp_pos (- x)) as Hp.
  rewrite (round_above_one (Float32.round (exp (- x))))
    by (apply round_small; lra).
  replace (1 / 1) with 1 by field. apply round_1.
Qed.

Ltac float_simpl :=
  repeat (progress
            rewrite ?Rmult_0_l, ?Rmult_0_r, ?Rmult_1_l, ?Rplus_0_l, ?round_0,
              ?round_1).

(** The powers of two [2 ^ -30] and [2 ^ -29] are floats. *)
Lemma round_pow2_30 : Float32.round (/ 2 ^ 30) = / 2 ^ 30.
Proof.
  assert (Hm : Float32.mag (/ 2 ^ 30) = (-29)%Z).
  { apply mag_unique.
    - rewrite (bpow_of_opp_nat (-29 - 1) 30) by reflexivity. lra.
    - rewrite (bpow_of_opp_nat (-29) 29) by reflexivity.
      apply Rinv_lt_contravar; lra. }
  unfold Float32.round, Float32.cexp. rewrite Hm.
  change (Z.max (-29 - 24) (-149)) with (-53)%Z.
  rewrite (bpow_of_nat (- -53) 53), (bpow_of_opp_nat (-53) 53) by reflexivity.
  assert (E : / 2 ^ 30 * 2 ^ 53 = 8388608) by (field; lra).
  rewrite E, (nearest_even_low _ 8388608) by lra.
  field.
Qed.

Lemma round_pow2_29 : Float32.round (/ 2 ^ 29) = / 2 ^ 29.
Proof.
  assert (Hm : Float32.mag (/ 2 ^ 29) = (-28)%Z).
  { apply mag_unique.
    - rewrite (bpow_of_opp_nat (-28 - 1) 29) by reflexivity. lra.
    - rewrite (bpow_of_opp_nat (-28) 28) by reflexivity.
      apply Rinv_lt_contravar; lra. }
  unfold Float32.round, Float32.cexp. rewrite Hm.
  change (Z.max (-28 - 24) (-149)) with (-52)%Z.
  rewrite (bpow_of_nat (- -52) 52), (bpow_of_opp_nat (-52) 52) by reflexivity.
  assert (E : / 2 ^ 29 * 2 ^ 52 = 8388608) by (field; lra).
  rewrite E, (nearest_even_low _ 8388608) by lra.
  field.
Qed.

(** A matching example whose score is below [2 ^ -25] has loss 1: the
    shortfall [1 - p] rounds to 1. *)
Lemma float32_loss_matching_small (p : R) :
  0 <= p < / 2 ^ 25 -> Float32.example_loss 1 p = 1.
Proof.
  intros Hp.
  unfold Float32.example_loss, Float32.add, Float32.mul, Float32.sub,
    Helpers.margin.
  cbv zeta.
  replace (1 - 1) with 0 by lra.
  rewrite (round_below_one p Hp), Rmax_left by lra.
  now float_simpl.
Qed.

Lemma float32_loss_perfect :
  Float32.example_loss 0 0 = 0 /\ Float32.example_loss 1 1 = 0.
Proof.
  unfold Float32.example_loss, Float32.add, Float32.mul, Float32.sub,
    Helpers.margin.
  cbv zeta. split.
  - replace (1 - 0) with 1 by lra.
    rewrite round_1, Rmax_left by lra.
    now float_simpl.
  - replace (1 - 1) with 0 by lra.
    rewrite round_0, Rmax_left by lra.
    now float_simpl.
Qed.

(** ** Cosine similarity over the reals

    What [cosine_similarity] computes in exact arithmetic on two vectors
    of the same length. *)

Lemma sqrt_guard_pos (x : K.vec) : 0 < sqrt (Rmax (sumsq x) K.epsilon).
Proof. apply sqrt_lt_R0, guard_pos. Qed.

Lemma cosine_similarity_unfold (x y : K.vec) :
  Helpers.cosine_similarity (x, y)
  = [dot x y * (/ sqrt (Rmax (sumsq x) K.epsilon)
                * / sqrt (Rmax (sumsq y) K.epsilon))].
Proof.
  unfold Helpers.cosine_similarity, K.l2_normalize.
  fold (sumsq x) (sumsq y).
  f_equal. apply dot_scaled.
Qed.


(** The guard and the Cauchy-Schwarz inequality keep the similarity
    between -1 and 1. *)
Lemma cosine_value_bounded (x y : K.vec) :
  let s := dot x y * (/ sqrt (Rmax (sumsq x) K.epsilon)
                      * / sqrt (Rmax (sumsq y) K.epsilon)) in
  -1 <= s <= 1.
Proof.
  intros s.
  pose proof (sqrt_guard_pos x) as Hsx. pose proof (sqrt_guard_pos y) as Hsy.
  pose proof (guard_pos x) as Hmx. pose proof (guard_pos y) as Hmy.
  pose proof (sqrt_sqrt _ (Rlt_le _ _ Hmx)) as Ex.
  pose proof (sqrt_sqrt _ (Rlt_le _ _ Hmy)) as Ey.
  pose proof (Rmax_l (sumsq x) K.epsilon) as Lx.
  pose proof (Rmax_l (sumsq y) K.epsilon) as Ly.
  pose proof (sumsq_nonneg x) as Nx. pose proof (sumsq_nonneg y) as Ny.
  pose proof (cauchy_schwarz x y) as CS.
  set (sx := sqrt (Rmax (sumsq x) K.epsilon)) in *.
  set (sy := sqrt (Rmax (sumsq y) K.epsilon)) in *.
  set (d := dot x y) in *.
  assert (Hd : d * d <= (sx * sy) * (sx * sy)).
  { apply Rle_trans with (sumsq x * sumsq y); [exact CS|].
    replace (sx * sy * (sx * sy)) with ((sx * sx) * (sy * sy)) by ring.
    rewrite Ex, Ey. apply Rmult_le_compat; assumption. }
  assert (Hp : 0 < sx * sy) by (apply Rmult_lt_0_compat; assumption).
  assert (Hs : s = d / (sx * sy)).
  { unfold s, Rdiv. rewrite Rinv_mult. reflexivity. }
  assert (Hb : - (sx * sy) <= d <= sx * sy) by (split; nra).
  rewrite Hs. split.
  - apply Rmult_le_reg_r with (sx * sy); [exact Hp|].
    unfold Rdiv. rewrite Rmult_assoc, Rinv_l; lra.
  - apply Rmult_le_reg_r with (sx * sy); [exact Hp|].
    unfold Rdiv. rewrite Rmult_assoc, Rinv_l; lra.
Qed.

Lemma guard_large (x : K.vec) :
  K.epsilon <= sumsq x -> sqrt (Rmax (sumsq x) K.epsilon) = norm2 x.
Proof. intros H. unfold norm2. now rewrite Rmax_left. Qed.

(** At or above the guard the similarity is the normalized dot product;
    below it the division is by the guard. *)
Lemma cosine_similarity_large (x y : K.vec) :
  K.epsilon <= sumsq x -> K.epsilon <= sumsq y ->
  Helpers.cosine_similarity (x, y) = [dot x y / (norm2 x * norm2 y)].
Proof.
  intros Hx Hy. rewrite cosine_similarity_unfold.
  rewrite !guard_large by assumption.
  unfold Rdiv. now rewrite Rinv_mult.
Qed.






(** ** Contrastive loss *)

Lemma contrastive_terms_cons (t p : R) (ys ps : K.vec) :
  Helpers.contrastive_terms (t :: ys) (p :: ps)
  = example_loss t p :: Helpers.contrastive_terms ys ps.
Proof. reflexivity. Qed.

Lemma contrastive_loss_single (t p : R) :
  Helpers.contrastive_loss [t] [p] = example_loss t p.
Proof.
  unfold Helpers.contrastive_loss. rewrite contrastive_terms_cons.
  unfold K.mean. cbn. field.
Qed.

Lemma loss_nonmatching (p : R) : Helpers.contrastive_loss [0] [p] = p * p.
Proof.
  rewrite contrastive_loss_single. unfold example_loss, Rsqr. ring.
Qed.

Lemma loss_matching (p : R) :
  Helpers.contrastive_loss [1] [p] = Rmax (1 - p) 0 * Rmax (1 - p) 0.
Proof.
  rewrite contrastive_loss_single.
  unfold example_loss, Helpers.margin, Rsqr. ring.
Qed.

Lemma hinge_below (p : R) : p <= 1 -> Rmax (1 - p) 0 = 1 - p.
Proof. intros H. apply Rmax_left. lra. Qed.

Lemma hinge_above (p : R) : 1 <= p -> Rmax (1 - p) 0 = 0.
Proof. intros H. apply Rmax_right. lra. Qed.

(** C2 fails as stated.  The scores [2 ^ -30] and [2 ^ -29] are two
    different single-precision numbers between 0 and 1, yet a matching
    example has the same loss, 1, at both: the shortfall [1 - score]
    rounds to 1.  So the loss of a matching example is not strictly
    decreasing in its score. *)
Lemma contrastive_loss_ties_in_float32 :
  Float32.round (/ 2 ^ 30) = / 2 ^ 30
  /\ Float32.round (/ 2 ^ 29) = / 2 ^ 29
  /\ 0 < / 2 ^ 30 < / 2 ^ 29
  /\ / 2 ^ 29 < 1
  /\ Float32.example_loss 1 (/ 2 ^ 30) = 1
  /\ Float32.example_loss 1 (/ 2 ^ 29) = 1
  /\ ~ (Float32.example_loss 1 (/ 2 ^ 29) < Float32.example_loss 1 (/ 2 ^ 30)).
Proof.
  assert (H30 : 0 < / 2 ^ 30) by (apply Rinv_0_lt_compat; lra).
  assert (H29 : / 2 ^ 30 < / 2 ^ 29) by (apply Rinv_lt_contravar; lra).
  assert (H25 : / 2 ^ 29 < / 2 ^ 25) by (apply Rinv_lt_contravar; lra).
  assert (H1 : / 2 ^ 25 < 1).
  { rewrite <- Rinv_1. apply Rinv_lt_contravar; lra. }
  assert (L30 : Float32.example_loss 1 (/ 2 ^ 30) = 1)
    by (apply float32_loss_matching_small; lra).
  assert (L29 : Float32.example_loss 1 (/ 2 ^ 29) = 1)
    by (apply float32_loss_matching_small; lra).
  split; [exact round_pow2_30|]. split; [exact round_pow2_29|].
  split; [lra|]. split; [lra|]. split; [exact L30|]. split; [exact L29|].
  rewrite L30, L29. lra.
Qed.

(** C2, amended.  The margin term sits on the label-1 side.  A
    non-matching example (label 0) contributes the square of its score,
    which no margin enters: it is zero at score 0 and does not decrease as
    a nonnegative score grows.  A matching example (label 1) contributes
    the squared shortfall below the margin 1: it is zero once the score
    has reached the margin and does not increase as the score grows.  The
    two zero cases are exact in single precision as well. *)
Theorem contrastive_loss_per_example (p q : R) :
  p <= q ->
  Helpers.contrastive_loss [0] [p] = p * p
  /\ Helpers.contrastive_loss [1] [p]
     = Rmax (Helpers.margin - p) 0 * Rmax (Helpers.margin - p) 0
  /\ Helpers.contrastive_loss [0] [0] = 0
  /\ (Helpers.margin <= p -> Helpers.contrastive_loss [1] [p] = 0)
  /\ (0 <= p ->
      Helpers.contrastive_loss [0] [p] <= Helpers.contrastive_loss [0] [q])
  /\ Helpers.contrastive_loss [1] [q] <= Helpers.contrastive_loss [1] [p]
  /\ Float32.example_loss 0 0 = 0
  /\ Float32.example_loss 1 Helpers.margin = 0.
Proof.
  intros Hpq. unfold Helpers.margin.
  split; [apply loss_nonmatching|]. split; [apply loss_matching|].
  split; [rewrite loss_nonmatching; lra|].
  split; [intros H; rewrite loss_matching, hinge_above by lra; lra|].
  split; [intros H; rewrite !loss_nonmatching; nra|].
  split; [|exact float32_loss_perfect].
  rewrite !loss_matching.
  destruct (Rle_dec 1 q) as [Hq|Hq].
  - rewrite (hinge_above q) by lra.
    pose proof (Rle_0_sqr (Rmax (1 - p) 0)) as H. unfold Rsqr in H. lra.
  - rewrite !hinge_below by lra. nra.
Qed.

Lemma contrastive_loss_per_example_witness :
  Helpers.contrastive_loss [1] [1 / 2] <= Helpers.contrastive_loss [1] [1 / 4]
  /\ Helpers.contrastive_loss [0] [1 / 4]
     <= Helpers.contrastive_loss [0] [1 / 2].
Proof.
  assert (H : 1 / 4 <= 1 / 2) by lra.
  destruct (contrastive_loss_per_example (1 / 4) (1 / 2) H)
    as (_ & _ & _ & _ & H0 & H1 & _).
  split; [exact H1|]. apply H0. lra.
Defined.

(** ** The last-step views *)

Lemma last_in_Forall {A : Type} (P : A -> Prop) (l : list A) (d : A) :
  l <> [] -> Forall P l -> P (List.last l d).
Proof.
  intros Hne HF. rewrite List.Forall_forall in HF. apply HF.
  destruct (exists_last Hne) as [l' [a ->]].
  rewrite last_last. apply in_or_app. right. now left.
Qed.

Lemma last_timestep_rev_halves (d : nat) (vests : K.seqt) :
  vests <> [] ->
  Forall (fun row => length row = (2 * d)%nat) vests ->
  Helpers.last_timestep_rev vests
  = firstn d (List.last vests []) ++ lastn d (List.hd [] vests)
  /\ length (Helpers.last_timestep_rev vests) = (2 * d)%nat.
Proof.
  intros Hne HF.
  assert (Hlast : length (List.last vests []) = (2 * d)%nat)
    by now apply last_in_Forall.
  destruct vests as [|row0 rest]; [congruence|].
  assert (Hhd : length row0 = (2 * d)%nat) by now inversion HF.
  unfold Helpers.last_timestep_rev, K.int_shape_last, lastn, K.concatenate.
  cbn [List.hd concat]. rewrite app_nil_r, Hhd.
  replace (2 * d / 2)%nat with d
    by (rewrite Nat.mul_comm; symmetry; apply Nat.div_mul; lia).
  replace (2 * d - d)%nat with d by lia.
  split; [reflexivity|].
  rewrite length_app, length_firstn, length_skipn. lia.
Qed.

Section EncoderFacts.

Context (cell_w : Type)
        (Cell : cell_kind -> nat -> R -> R -> cell_w -> K.seqt -> K.seqt)
        (bn_w : Type).

Local Abbreviation layer_pass := (rnn_layer cell_w Cell bn_w).
Local Abbreviation loop := (rnn_loop cell_w Cell bn_w).
Local Abbreviation encoder := (build_rnn_encoder cell_w Cell bn_w).

Lemma rnn_layer_last_step bidirectional lstm_dim rdp dp kind cudnn
    (w : weights cell_w bn_w) li rnn :
  snd (layer_pass bidirectional lstm_dim rdp dp kind cudnn w li rnn)
  = Some (get_last_step_of bidirectional).
Proof. unfold rnn_layer. now destruct bidirectional. Qed.

Lemma rnn_loop_last_step bidirectional lstm_dim rdp dp kind cudnn
    (w : weights cell_w bn_w) (layers : nat) :
  (1 <= layers)%nat ->
  snd (loop bidirectional lstm_dim rdp dp kind cudnn w layers)
  = Some (get_last_step_of bidirectional).
Proof.
  intros Hl. unfold rnn_loop.
  destruct layers as [|n]; [lia|].
  rewrite seq_S, fold_left_app. cbn [fold_left].
  apply rnn_layer_last_step.
Qed.

Lemma rnn_loop_no_layer bidirectional lstm_dim rdp dp kind cudnn
    (w : weights cell_w bn_w) :
  snd (loop bidirectional lstm_dim rdp dp kind cudnn w 0) = None.
Proof. reflexivity. Qed.

Lemma build_rnn_encoder_pooled (w : weights cell_w bn_w)
    (bidirectional : bool) (lstm_dim : nat) (rdp dp : R) (layers : nat)
    (lstm cudnn : bool) :
  (1 <= layers)%nat ->
  let rnn :=
    fst (loop bidirectional lstm_dim rdp dp (select_cell lstm cudnn) cudnn
           w layers) in
  let last := fun inp => get_last_step_of bidirectional (rnn inp) in
  let mean := fun inp => Layers.GlobalAveragePooling1D (rnn inp) in
  let maxp := fun inp => Layers.GlobalMaxPooling1D (rnn inp) in
  encoder w false bidirectional lstm_dim rdp dp layers lstm cudnn true
  = Ok (OutList [fun inp => K.concatenate [last inp; mean inp; maxp inp];
                 last; mean; maxp]).
Proof.
  intros Hl. cbv zeta. unfold build_rnn_encoder.
  pose proof (rnn_loop_last_step bidirectional lstm_dim rdp dp
                (select_cell lstm cudnn) cudnn w layers Hl) as Hg.
  destruct (loop bidirectional lstm_dim rdp dp (select_cell lstm cudnn)
              cudnn w layers) as [rnn g].
  cbn in Hg. subst g. reflexivity.
Qed.

Lemma build_rnn_encoder_no_layer (w : weights cell_w bn_w)
    (bidirectional : bool) (lstm_dim : nat) (rdp dp : R)
    (lstm cudnn use_pool : bool) :
  encoder w false bidirectional lstm_dim rdp dp 0 lstm cudnn use_pool
  = Raise UnboundLocalError.
Proof. unfold build_rnn_encoder. cbn. now destruct use_pool. Qed.


(** C10. On a sequence tensor with at least one timestep whose rows all
    have [2 * d] features, [last_timestep_rev] returns the first [d]
    features of the final timestep followed by the last [d] features of
    the first timestep; and [get_last_step] is [last_timestep_rev] after
    the encoder loop whenever the encoder is bidirectional. *)
Theorem last_timestep_rev_bidirectional :
  (forall (d : nat) (vests : K.seqt),
      vests <> [] ->
      Forall (fun row => length row = (2 * d)%nat) vests ->
      Helpers.last_timestep_rev vests
      = firstn d (List.last vests []) ++ lastn d (List.hd [] vests))
  /\ (forall (w : weights cell_w bn_w) (lstm_dim : nat) (rdp dp : R)
        (kind : cell_kind) (cudnn : bool) (layers : nat),
        (1 <= layers)%nat ->
        snd (loop true lstm_dim rdp dp kind cudnn w layers)
        = Some Helpers.last_timestep_rev).
Proof.
  split.
  - intros d vests Hne HF. now apply last_timestep_rev_halves.
  - intros w lstm_dim rdp dp kind cudnn layers Hl.
    now rewrite rnn_loop_last_step.
Qed.

End EncoderFacts.



Lemma last_timestep_rev_bidirectional_witness :
  Helpers.last_timestep_rev [[1; 2; 3; 4]; [5; 6; 7; 8]; [9; 10; 11; 12]]
  = [9; 10; 3; 4].
Proof.
  rewrite (proj1 (last_timestep_rev_bidirectional R Sample.Cell unit) 2%nat).
  - reflexivity.
  - discriminate.
  - repeat constructor.
Defined.

Lemma concat_steps_last (a b : K.seqt) :
  length a = length b -> a <> [] ->
  List.last (Layers.concat_steps a b) []
  = List.last a [] ++ List.last b [].
Proof.
  revert b. induction a as [|r a IH]; intros [|q b] Hlen Hne;
    try congruence; try discriminate.
  destruct a as [|r' a'].
  - destruct b; [reflexivity|discriminate].
  - destruct b as [|q' b']; [discriminate|].
    change (Layers.concat_steps (r :: r' :: a') (q :: q' :: b'))
      with ((r ++ q) :: Layers.concat_steps (r' :: a') (q' :: b')).
    change (List.last (r :: r' :: a') []) with (List.last (r' :: a') []).
    change (List.last (q :: q' :: b') []) with (List.last (q' :: b') []).
    rewrite <- IH by (cbn in *; congruence).
    reflexivity.
Qed.

Lemma hd_rev_last {A : Type} (l : list A) (d : A) :
  List.hd d (rev l) = List.last l d.
Proof.
  destruct l as [|a l] using rev_ind; [reflexivity|].
  now rewrite rev_unit, last_last.
Qed.

(** Under [Bidirectional], whose rows hold the forward states followed by
    the backward states, [last_timestep_rev] is the forward layer's state
    after its last step followed by the backward layer's state after its
    last step. *)
Lemma last_timestep_rev_Bidirectional {W : Type}
    (layer : W -> K.seqt -> K.seqt) (wf wb : W) (units : nat) (t : K.seqt) :
  t <> [] ->
  (forall w s, length (layer w s) = length s) ->
  (forall w s, Forall (fun row => length row = units) (layer w s)) ->
  Helpers.last_timestep_rev (Layers.Bidirectional layer wf wb t)
  = List.last (layer wf t) [] ++ List.last (layer wb (rev t)) [].
Proof.
  intros Hne Hlen Hrow.
  unfold Helpers.last_timestep_rev, K.concatenate, K.int_shape_last,
    Layers.Bidirectional.
  set (F := layer wf t). set (B := layer wb (rev t)).
  assert (HlF : length F = length t) by apply Hlen.
  assert (HlB : length B = length t).
  { unfold B. now rewrite Hlen, length_rev. }
  assert (HneF : F <> []).
  { intros E. rewrite E in HlF. destruct t; [congruence|discriminate]. }
  assert (HneB : B <> []).
  { intros E. rewrite E in HlB. destruct t; [congruence|discriminate]. }
  assert (HF : Forall (fun row => length row = units) F) by apply Hrow.
  assert (HB : Forall (fun row => length row = units) B) by apply Hrow.
  assert (HlastF : length (List.last F []) = units)
    by now apply last_in_Forall.
  assert (HlastB : length (List.last B []) = units)
    by now apply last_in_Forall.
  cbn [concat]. rewrite app_nil_r.
  assert (Hl : length F = length (rev B)) by (rewrite length_rev; lia).
  rewrite (concat_steps_last F (rev B) Hl HneF).
  rewrite <- (hd_rev_last B []) in HlastB |- *.
  assert (HhdF : length (List.hd [] F) = units).
  { destruct F; [congruence|]. now inversion HF. }
  assert (Hhd : List.hd [] (Layers.concat_steps F (rev B))
                = List.hd [] F ++ List.hd [] (rev B)).
  { destruct F as [|f F']; [congruence|].
    destruct (rev B) as [|b B'] eqn:E; [|reflexivity].
    apply (f_equal (@length _)) in E. rewrite length_rev in E.
    cbn in E. destruct B; [congruence|discriminate]. }
  rewrite Hhd, length_app, HhdF, HlastB.
  replace ((units + units) / 2)%nat with units
    by (replace (units + units)%nat with (units * 2)%nat by lia;
        symmetry; apply Nat.div_mul; lia).
  rewrite List.firstn_app, HlastF, Nat.sub_diag, List.firstn_O, app_nil_r.
  rewrite List.firstn_all2 by lia.
  rewrite List.skipn_app, HhdF, Nat.sub_diag, List.skipn_O.
  rewrite List.skipn_all2 by lia. reflexivity.
Qed.

(** ** Dense layers and the merge head *)

Lemma Dense_length (units : nat) (act : R -> R) (w : Layers.dense_w)
    (x : K.vec) :
  length (Layers.Dense units act w x) = units.
Proof. unfold Layers.Dense. now rewrite length_map, length_seq. Qed.

Lemma relu_nonneg (x : R) : 0 <= Layers.relu x.
Proof. unfold Layers.relu. apply Rmax_r. Qed.

Lemma Dense_relu_nonneg (units : nat) (w : Layers.dense_w) (x : K.vec) :
  Forall (fun v => 0 <= v) (Layers.Dense units Layers.relu w x).
Proof.
  unfold Layers.Dense. apply List.Forall_forall. intros v Hv.
  apply in_map_iff in Hv. destruct Hv as [j [<- _]]. apply relu_nonneg.
Qed.

Lemma sigmoid_range (x : R) : 0 < Layers.sigmoid x < 1.
Proof.
  unfold Layers.sigmoid. pose proof (exp_pos (- x)) as He. split.
  - apply Rinv_0_lt_compat. lra.
  - rewrite <- Rinv_1. apply Rinv_lt_contravar; lra.
Qed.

Lemma dense_loop_stack (width : nat) (ws : nat -> Layers.dense_w)
    (n i : nat) (v : K.vec) :
  fold_left
    (fun dns1 k => Layers.Dense width Layers.relu (ws k) dns1) (seq i n) v
  = dense_relu_stack width ws n i v.
Proof.
  revert i v. induction n as [|n IH]; intros i v; [reflexivity|].
  cbn [seq fold_left dense_relu_stack]. apply IH.
Qed.

Lemma dense_relu_stack_last (width : nat) (ws : nat -> Layers.dense_w)
    (n i : nat) (v : K.vec) :
  dense_relu_stack width ws (S n) i v
  = Layers.Dense width Layers.relu (ws (i + n)%nat)
      (dense_relu_stack width ws n i v).
Proof.
  revert i v. induction n as [|n IH]; intros i v.
  - cbn [dense_relu_stack]. now rewrite Nat.add_0_r.
  - change (dense_relu_stack width ws (S (S n)) i v)
      with (dense_relu_stack width ws (S n) (S i)
              (Layers.Dense width Layers.relu (ws i) v)).
    rewrite IH. cbn [dense_relu_stack].
    now replace (S i + n)%nat with (i + S n)%nat by lia.
Qed.

Section MergeFacts.

Context (cell_w bn_w : Type)
        (BatchNormalization : bn_w -> K.vec -> K.vec)
        (Dropout : R -> K.vec -> K.vec).

Local Abbreviation merge := (dense_comb cell_w bn_w BatchNormalization Dropout).

(** C7. The merge head concatenates its two inputs, applies batch
    normalisation, then dropout, then exactly [dlrs] dense layers of width
    [dense_dim] with ReLU; hence for [dlrs >= 1] its output has [dense_dim]
    coordinates and every one of them is nonnegative. *)
Theorem dense_comb_merge_head (self : config) (w : weights cell_w bn_w)
    (inp1 inp2 : K.vec) :
  merge self w (dlrs self) (inp1, inp2)
  = dense_relu_stack (dense_dim self) (merge_dense cell_w bn_w w)
      (dlrs self) 0
      (Dropout (dropout self)
         (BatchNormalization (merge_bn cell_w bn_w w) (inp1 ++ inp2)))
  /\ ((1 <= dlrs self)%nat ->
      length (merge self w (dlrs self) (inp1, inp2)) = dense_dim self
      /\ Forall (fun v => 0 <= v) (merge self w (dlrs self) (inp1, inp2))).
Proof.
  assert (E : merge self w (dlrs self) (inp1, inp2)
              = dense_relu_stack (dense_dim self) (merge_dense cell_w bn_w w)
                  (dlrs self) 0
                  (Dropout (dropout self)
                     (BatchNormalization (merge_bn cell_w bn_w w)
                        (inp1 ++ inp2)))).
  { unfold dense_comb, K.concatenate. cbn [concat].
    rewrite app_nil_r. apply dense_loop_stack. }
  split; [exact E|].
  intros Hl. rewrite E.
  destruct (dlrs self) as [|n]; [lia|].
  rewrite dense_relu_stack_last. split.
  - apply Dense_length.
  - apply Dense_relu_nonneg.
Qed.

End MergeFacts.

Lemma dense_comb_merge_head_witness :
  length (dense_comb R unit Sample.BatchNormalization Sample.Dropout
            (Sample.cfg 1) (Sample.w 0) 1 ([1], [2]))
  = dense_dim (Sample.cfg 1)
  /\ Forall (fun v => 0 <= v)
       (dense_comb R unit Sample.BatchNormalization Sample.Dropout
          (Sample.cfg 1) (Sample.w 0) 1 ([1], [2])).
Proof.
  apply (proj2 (dense_comb_merge_head R unit Sample.BatchNormalization
                  Sample.Dropout (Sample.cfg 1) (Sample.w 0) [1] [2])).
  cbn. lia.
Defined.

(** ** The assembled network *)

Lemma sigmoid_unit_interval (x : R) : 0 <= Layers.sigmoid x <= 1.
Proof. pose proof (sigmoid_range x). lra. Qed.

Lemma concatenate_singletons (l : list K.vec) :
  Forall (fun v => length v = 1%nat) l ->
  length (K.concatenate l) = length l.
Proof.
  unfold K.concatenate. induction 1 as [|v l Hv _ IH]; [reflexivity|].
  cbn [concat]. rewrite length_app, Hv, IH. reflexivity.
Qed.

Lemma cosine_similarity_length (p : K.vec * K.vec) :
  length (Helpers.cosine_similarity p) = 1%nat.
Proof. now destruct p. Qed.

Section ModelFacts.

Context (cell_w : Type)
        (Cell : cell_kind -> nat -> R -> R -> cell_w -> K.seqt -> K.seqt)
        (bn_w : Type)
        (BatchNormalization : bn_w -> K.vec -> K.vec)
        (Dropout : R -> K.vec -> K.vec)
        (build_deep_sim_net :
           option (nat -> nat -> R -> K.vec * K.vec -> K.vec)).

Local Abbreviation net :=
  (get_qa_memnet_model cell_w Cell bn_w BatchNormalization Dropout
     build_deep_sim_net).
Local Abbreviation graph :=
  (relevance_graph cell_w bn_w BatchNormalization Dropout).
Local Abbreviation dm :=
  (dense_comb cell_w bn_w BatchNormalization Dropout).
Local Abbreviation embedder self w :=
  (build_embedder cell_w bn_w w (seq_len self) (voc_siz self) false false
     (emb_dim self)).
Local Abbreviation encoder_ctx self w :=
  (build_rnn_encoder cell_w Cell bn_w w false (bdr self) (lstm_dim self)
     (rdp self) (edp self) (layers self) true (cudnn self) (pool self)).

(** A model that is built is the graph over the four outputs of the
    encoder, and its configuration passed every check of the
    construction. *)
Lemma model_inv (self : config) (w : weights cell_w bn_w)
    (m : list nat -> list nat -> tensors) :
  net self w = Ok m ->
  exists o0 o1 o2 o3 : K.seqt -> K.vec,
    encoder_ctx self w = Ok (OutList [o0; o1; o2; o3])
    /\ m = graph self w o0 o1 o2 o3
    /\ voc_siz self <> None
    /\ (1 <= lstm_dim self)%nat
    /\ (dsn self = false -> (1 <= dlrs self)%nat)
    /\ (dsn self = true -> build_deep_sim_net <> None).
Proof.
  unfold get_qa_memnet_model. intros Hm.
  destruct (voc_siz self) as [v|]; [|discriminate]. cbn [bind Ok] in Hm.
  destruct (encoder_ctx self w) as [e|out]; [discriminate|].
  cbn [bind] in Hm.
  destruct (Nat.eqb_spec (lstm_dim self) 0) as [|Hu]; [discriminate|].
  cbn [bind Ok] in Hm.
  destruct out as [ts|t|t]; try discriminate.
  destruct ts as [|o0 [|o1 [|o2 [|o3 [|o4 ts]]]]]; try discriminate.
  exists o0, o1, o2, o3.
  destruct (dsn self).
  - destruct build_deep_sim_net; [|discriminate].
    cbn [bind Ok] in Hm. injection Hm as <-.
    repeat split; try discriminate; lia.
  - destruct (Nat.eqb_spec (dlrs self) 0) as [|Hd]; [discriminate|].
    cbn [bind Ok] in Hm. injection Hm as <-.
    repeat split; try discriminate; lia.
Qed.

Lemma graph_sims (self : config) (w : weights cell_w bn_w)
    (o0 o1 o2 o3 : K.seqt -> K.vec) (ctx rpl : list nat) :
  let t := graph self w o0 o1 o2 o3 ctx rpl in
  sims t
  = K.concatenate
      ([Helpers.cosine_similarity (enc_ctx t, enc_rpl t);
        Helpers.cosine_similarity (c1 t, r1 t);
        Helpers.cosine_similarity (c1 t, r2 t);
        Helpers.cosine_similarity (c1 t, r3 t);
        Helpers.cosine_similarity (c2 t, r1 t);
        Helpers.cosine_similarity (c2 t, r2 t);
        Helpers.cosine_similarity (c2 t, r3 t);
        Helpers.cosine_similarity (c3 t, r1 t);
        Helpers.cosine_similarity (c3 t, r2 t);
        Helpers.cosine_similarity (c3 t, r3 t)]
       ++ (if dsn self then []
           else [Helpers.cosine_similarity (enc_ctx_cond t, enc_rpl t)])).
Proof.
  intros t. unfold t, relevance_graph.
  cbn [sims enc_ctx enc_rpl c1 c2 c3 r1 r2 r3 enc_ctx_cond].
  now destruct (dsn self).
Qed.

Lemma graph_sims_length (self : config) (w : weights cell_w bn_w)
    (o0 o1 o2 o3 : K.seqt -> K.vec) (ctx rpl : list nat) :
  length (sims (graph self w o0 o1 o2 o3 ctx rpl))
  = (if dsn self then 10 else 11)%nat.
Proof.
  rewrite graph_sims. rewrite concatenate_singletons.
  - now destruct (dsn self).
  - destruct (dsn self); cbn [app];
      repeat (apply List.Forall_cons; [apply cosine_similarity_length|]);
      apply List.Forall_nil.
Qed.

Lemma graph_output (self : config) (w : weights cell_w bn_w)
    (o0 o1 o2 o3 : K.seqt -> K.vec) (ctx rpl : list nat) :
  exists s : R,
    fc2 (graph self w o0 o1 o2 o3 ctx rpl) = [s] /\ 0 <= s <= 1.
Proof.
  unfold relevance_graph. cbn [fc2]. unfold Layers.Dense at 1.
  cbn [seq map]. eexists. split; [reflexivity|]. apply sigmoid_unit_interval.
Qed.

(** C1, amended.  In every model that is built with [dsn] false, the
    vector fed to the scoring head has exactly eleven cosine-similarity
    scalars: the similarity of the two full concatenated representations
    before conditioning, the nine pairings of the context's three
    sub-representations with the reply's three, all on the encoder's own
    outputs, and last the similarity of the full representations after the
    context representation went through the merge head together with the
    reply's. *)
Theorem scoring_head_input (self : config) (w : weights cell_w bn_w)
    (m : list nat -> list nat -> tensors) :
  net self w = Ok m -> dsn self = false ->
  exists o0 o1 o2 o3 : K.seqt -> K.vec,
    encoder_ctx self w = Ok (OutList [o0; o1; o2; o3])
    /\ forall ctx rpl : list nat,
         let t := m ctx rpl in
         let e_ctx := embedder self w ctx in
         let e_rpl := embedder self w rpl in
         (enc_ctx t, c1 t, c2 t, c3 t)
         = (o0 e_ctx, o1 e_ctx, o2 e_ctx, o3 e_ctx)
         /\ (enc_rpl t, r1 t, r2 t, r3 t)
            = (o0 e_rpl, o1 e_rpl, o2 e_rpl, o3 e_rpl)
         /\ enc_ctx_cond t = dm self w (dlrs self) (enc_ctx t, enc_rpl t)
         /\ sims t
            = K.concatenate
                [Helpers.cosine_similarity (enc_ctx t, enc_rpl t);
                 Helpers.cosine_similarity (c1 t, r1 t);
                 Helpers.cosine_similarity (c1 t, r2 t);
                 Helpers.cosine_similarity (c1 t, r3 t);
                 Helpers.cosine_similarity (c2 t, r1 t);
                 Helpers.cosine_similarity (c2 t, r2 t);
                 Helpers.cosine_similarity (c2 t, r3 t);
                 Helpers.cosine_similarity (c3 t, r1 t);
                 Helpers.cosine_similarity (c3 t, r2 t);
                 Helpers.cosine_similarity (c3 t, r3 t);
                 Helpers.cosine_similarity (enc_ctx_cond t, enc_rpl t)]
         /\ length (sims t) = 11%nat.
Proof.
  intros Hm Hd.
  destruct (model_inv self w m Hm) as (o0 & o1 & o2 & o3 & He & -> & _).
  exists o0, o1, o2, o3. split; [exact He|].
  intros ctx rpl. cbv zeta.
  split; [reflexivity|]. split; [reflexivity|]. split; [reflexivity|].
  split.
  - rewrite graph_sims, Hd. reflexivity.
  - rewrite graph_sims_length, Hd. reflexivity.
Qed.

(** C3, amended.  In every model that is built, the scoring head
    concatenates the similarity scalars (ten with [dsn] set, eleven
    otherwise), passes them through one dense layer of 16 ReLU units and
    then a single sigmoid unit, so for every pair of token sequences the
    output is exactly one scalar, and it lies between 0 and 1, both ends
    included. *)
Theorem relevance_head (self : config) (w : weights cell_w bn_w)
    (m : list nat -> list nat -> tensors) :
  net self w = Ok m ->
  forall ctx rpl : list nat,
    let t := m ctx rpl in
    sims t
    = K.concatenate
        ([Helpers.cosine_similarity (enc_ctx t, enc_rpl t);
          Helpers.cosine_similarity (c1 t, r1 t);
          Helpers.cosine_similarity (c1 t, r2 t);
          Helpers.cosine_similarity (c1 t, r3 t);
          Helpers.cosine_similarity (c2 t, r1 t);
          Helpers.cosine_similarity (c2 t, r2 t);
          Helpers.cosine_similarity (c2 t, r3 t);
          Helpers.cosine_similarity (c3 t, r1 t);
          Helpers.cosine_similarity (c3 t, r2 t);
          Helpers.cosine_similarity (c3 t, r3 t)]
         ++ (if dsn self then []
             else [Helpers.cosine_similarity (enc_ctx_cond t, enc_rpl t)]))
    /\ length (sims t) = (if dsn self then 10 else 11)%nat
    /\ fc1 t = Layers.Dense 16 Layers.relu (fc1_w cell_w bn_w w) (sims t)
    /\ length (fc1 t) = 16%nat
    /\ fc2 t
       = Layers.Dense 1 Layers.sigmoid (relevance cell_w bn_w w) (fc1 t)
    /\ exists s : R, fc2 t = [s] /\ 0 <= s <= 1.
Proof.
  intros Hm ctx rpl.
  destruct (model_inv self w m Hm) as (o0 & o1 & o2 & o3 & _ & -> & _).
  cbv zeta.
  split; [apply graph_sims|]. split; [apply graph_sims_length|].
  split; [reflexivity|]. split; [apply Dense_length|].
  split; [reflexivity|]. apply graph_output.
Qed.


End ModelFacts.

Lemma sample_last_step (h : R) :
  exists m : list nat -> list nat -> tensors,
    Sample.get_model 1 h = Ok m
    /\ c1 (m [0%nat] [0%nat]) = [h] /\ r1 (m [0%nat] [0%nat]) = [h].
Proof. eexists. split; [reflexivity|]. split; reflexivity. Qed.

(** C1 fails as stated: on the sample network, built with [dsn] false, the
    vector fed to the scoring head has eleven entries, not ten. *)
Lemma scoring_head_input_not_ten :
  exists m : list nat -> list nat -> tensors,
    Sample.get_model 1 0 = Ok m
    /\ length (sims (m [0%nat] [0%nat])) = 11%nat
    /\ length (sims (m [0%nat] [0%nat])) <> 10%nat.
Proof.
  eexists. split; [reflexivity|].
  rewrite graph_sims_length. cbn [dsn Sample.cfg].
  split; [reflexivity|lia].
Qed.

Lemma scoring_head_input_witness :
  exists m : list nat -> list nat -> tensors,
    Sample.get_model 1 0 = Ok m
    /\ length (sims (m [0%nat] [0%nat])) = 11%nat.
Proof.
  eexists. split; [reflexivity|].
  destruct (scoring_head_input R Sample.Cell unit Sample.BatchNormalization
              Sample.Dropout None (Sample.cfg 1) (Sample.w 0) _
              eq_refl eq_refl)
    as (o0 & o1 & o2 & o3 & _ & H).
  apply (H [0%nat] [0%nat]).
Defined.

(** C3 fails as stated: with the bias 100 in the relevance unit of the
    sample network the logit is 100, and in single precision the sigmoid
    of 100 is exactly 1, so the score is not strictly below 1. *)
Lemma sigmoid_saturates_in_float32 :
  exists m : list nat -> list nat -> tensors,
    get_qa_memnet_model R Sample.Cell unit Sample.BatchNormalization
      Sample.Dropout None (Sample.cfg 1) (Fixtures.w_relevance 100) = Ok m
    /\ fc2 (m [0%nat] [0%nat]) = [Layers.sigmoid 100]
    /\ Float32.sigmoid 100 = 1
    /\ ~ (Float32.sigmoid 100 < 1).
Proof.
  eexists. split; [reflexivity|]. split.
  - unfold relevance_graph. cbn [fc2]. unfold Layers.Dense at 1.
    cbn [seq map relevance Fixtures.w_relevance Layers.kernel Layers.bias].
    rewrite dot_nil_r. do 2 f_equal. lra.
  - rewrite float32_sigmoid_saturated by lra. split; [reflexivity|lra].
Qed.

Lemma relevance_head_witness :
  exists m : list nat -> list nat -> tensors,
    Sample.get_model 1 0 = Ok m
    /\ length (sims (m [0%nat] [0%nat])) = 11%nat
    /\ exists s : R, fc2 (m [0%nat] [0%nat]) = [s] /\ 0 <= s <= 1.
Proof.
  eexists. split; [reflexivity|].
  destruct (relevance_head R Sample.Cell unit Sample.BatchNormalization
              Sample.Dropout None (Sample.cfg 1) (Sample.w 0) _ eq_refl
              [0%nat] [0%nat])
    as (_ & Hl & _ & _ & _ & Hs).
  split; [exact Hl|exact Hs].
Defined.



(** ** Saving, loading, training and predicting *)

Section FacadeFacts.

Context (cell_w : Type)
        (Cell : cell_kind -> nat -> R -> R -> cell_w -> K.seqt -> K.seqt)
        (bn_w : Type)
        (BatchNormalization : bn_w -> K.vec -> K.vec)
        (Dropout : R -> K.vec -> K.vec)
        (build_deep_sim_net :
           option (nat -> nat -> R -> K.vec * K.vec -> K.vec)).

Local Abbreviation init :=
  (__init__ cell_w Cell bn_w BatchNormalization Dropout build_deep_sim_net).
Local Abbreviation predict :=
  (predict_score_on_batch cell_w Cell bn_w BatchNormalization Dropout
     build_deep_sim_net).

Lemma init_inv (cfg : config) (w0 : weights cell_w bn_w)
    (cls : option loc) (wd wd' : world cell_w bn_w) (self : instance) :
  init cfg w0 cls wd = Ok (self, wd') ->
  self_config self = cfg
  /\ obj_model self = cls
  /\ model self = fresh (dom (heap cell_w bn_w wd))
  /\ heap cell_w bn_w wd' !! model self = Some w0
  /\ files cell_w bn_w wd' = files cell_w bn_w wd.
Proof.
  unfold __init__.
  destruct (get_qa_memnet_model _ _ _ _ _ _ cfg w0) as [e|m];
    [discriminate|].
  cbn [bind]. intros H. injection H as <- <-. cbn.
  repeat split. apply lookup_insert_eq.
Qed.

(** A network that already exists when the instance is created is never
    the one [__init__] builds. *)
Lemma init_model_fresh (cfg : config) (w0 : weights cell_w bn_w)
    (cls : option loc) (wd wd' : world cell_w bn_w) (self : instance)
    (l : loc) :
  init cfg w0 cls wd = Ok (self, wd') ->
  is_Some (heap cell_w bn_w wd !! l) -> model self <> l.
Proof.
  intros Hi Hl. apply init_inv in Hi as (_ & _ & Hm & _).
  rewrite Hm. intros <-.
  apply elem_of_dom in Hl. now apply is_fresh in Hl.
Qed.

Lemma save_without_obj_model (self : instance) (path : string)
    (wd : world cell_w bn_w) :
  obj_model self = None ->
  save cell_w bn_w self path wd = Raise AttributeError
  /\ load cell_w bn_w self path wd = Raise AttributeError.
Proof. intros H. unfold save, load. now rewrite H. Qed.

(** Loading through an [obj_model] that is not [model] leaves the weights
    behind the predictions as they were. *)
Lemma load_other_network (self : instance) (path : string)
    (wd wd' : world cell_w bn_w) :
  obj_model self <> Some (model self) ->
  load cell_w bn_w self path wd = Ok wd' ->
  heap cell_w bn_w wd' !! model self = heap cell_w bn_w wd !! model self.
Proof.
  unfold load. intros Hne.
  destruct (obj_model self) as [l|]; [|discriminate].
  destruct (heap cell_w bn_w wd !! l); [|discriminate].
  destruct (files cell_w bn_w wd !! path); [|discriminate].
  intros H. injection H as <-. cbn.
  apply lookup_insert_ne. congruence.
Qed.

(** Whatever [obj_model] refers to, saving and at once loading the same
    path succeeds and leaves every network as it was. *)
Lemma save_then_load (self : instance) (path : string)
    (wd : world cell_w bn_w) (l : loc) (w : weights cell_w bn_w) :
  obj_model self = Some l ->
  heap cell_w bn_w wd !! l = Some w ->
  exists wd1 wd2 : world cell_w bn_w,
    save cell_w bn_w self path wd = Ok wd1
    /\ load cell_w bn_w self path wd1 = Ok wd2
    /\ heap cell_w bn_w wd2 = heap cell_w bn_w wd
    /\ forall batch, predict self batch wd2 = predict self batch wd.
Proof.
  intros Ho Hl. unfold save, load. rewrite Ho, Hl.
  eexists. eexists. split; [reflexivity|]. cbn [heap files].
  rewrite Hl, lookup_insert_eq. split; [reflexivity|]. cbn [heap].
  assert (E : <[l:=w]> (heap cell_w bn_w wd) = heap cell_w bn_w wd)
    by now apply insert_id.
  split; [exact E|].
  intros batch. unfold predict_score_on_batch. cbn [heap]. now rewrite E.
Qed.

(** Training writes the weights of [model]; a save through an [obj_model]
    that is another network stores what that network held before. *)
Lemma save_after_training (fit_batch :
      (K.vec -> K.vec -> R) ->
      (weights cell_w bn_w -> list nat -> list nat -> K.vec) ->
      weights cell_w bn_w -> list (list nat * list nat) -> K.vec ->
      weights cell_w bn_w * K.vec)
    (self : instance) (path : string)
    (batch : list (list nat) * list (list nat)) (y loss : K.vec)
    (wd wd1 wd2 : world cell_w bn_w) (l : loc) :
  obj_model self = Some l -> l <> model self ->
  train_on_batch cell_w Cell bn_w BatchNormalization Dropout
    build_deep_sim_net fit_batch self batch y wd = Ok (loss, wd1) ->
  save cell_w bn_w self path wd1 = Ok wd2 ->
  files cell_w bn_w wd2 !! path = heap cell_w bn_w wd !! l.
Proof.
  intros Ho Hne Ht Hs.
  assert (Hl : heap cell_w bn_w wd1 !! l = heap cell_w bn_w wd !! l).
  { unfold train_on_batch in Ht.
    destruct (heap cell_w bn_w wd !! model self); [|discriminate].
    destruct (check_input_shapes _ _); [discriminate|]. cbn [bind] in Ht.
    destruct (check_array_lengths _ _); [discriminate|]. cbn [bind] in Ht.
    destruct (rows _ _); [discriminate|]. cbn [bind] in Ht.
    destruct (fit_batch _ _ _ _ _) as [w' lo].
    injection Ht as _ <-. cbn [heap]. now apply lookup_insert_ne. }
  unfold save in Hs. rewrite Ho, Hl in Hs.
  destruct (heap cell_w bn_w wd !! l); [|discriminate].
  injection Hs as <-. cbn [files]. apply lookup_insert_eq.
Qed.

End FacadeFacts.

(** C8. A fresh instance predicts through [self.model], which [__init__]
    binds; [save] and [load] go through [self.obj_model], which nothing in
    the class binds, and both raise [AttributeError]. *)
Theorem save_and_load_miss_the_model :
  exists (self : instance) (wd : world R unit),
    Sample.new = Ok (self, wd)
    /\ (exists scores : list K.vec,
          predict_score_on_batch R Sample.Cell unit
            Sample.BatchNormalization Sample.Dropout None self
            ([[0%nat]], [[0%nat]]) wd = Ok scores
          /\ length scores = 1%nat)
    /\ save R unit self "qa_memnet.h5" wd = Raise AttributeError
    /\ load R unit self "qa_memnet.h5" wd = Raise AttributeError.
Proof.
  destruct (sample_last_step 0) as (m & Hm & _).
  unfold Sample.get_model in Hm.
  unfold Sample.new, __init__. rewrite Hm. cbn [bind].
  eexists. eexists. split; [reflexivity|]. split.
  - unfold predict_score_on_batch. cbn [model heap self_config].
    rewrite lookup_insert_eq, Hm. cbn.
    eexists. split; reflexivity.
  - now apply save_without_obj_model.
Qed.

(** * Further properties of the module *)

(** ** [cosine_similarity]: symmetry, zero vectors, negation *)

Lemma mul_comm (x y : K.vec) : K.mul x y = K.mul y x.
Proof.
  revert y. induction x as [|a x IH]; intros [|b y]; try reflexivity.
  cbn. now rewrite IH, Rmult_comm.
Qed.

Lemma dot_comm (x y : K.vec) : dot x y = dot y x.
Proof. unfold dot. now rewrite mul_comm. Qed.

Lemma dot_opp_l (x y : K.vec) : dot (map Ropp x) y = - dot x y.
Proof.
  revert y. induction x as [|a x IH]; intros [|b y]; cbn [map];
    rewrite ?dot_nil_r, ?dot_cons; try (cbn; lra).
  rewrite IH. lra.
Qed.

Lemma sumsq_opp (x : K.vec) : sumsq (map Ropp x) = sumsq x.
Proof.
  induction x as [|a x IH]; [reflexivity|].
  cbn [map]. rewrite !sumsq_cons, IH. lra.
Qed.

Lemma dot_zero_l (x y : K.vec) : sumsq x = 0 -> dot x y = 0.
Proof.
  intros Hx. pose proof (cauchy_schwarz x y) as H. rewrite Hx in H. nra.
Qed.

Lemma sumsq_zero (x : K.vec) : Forall (fun a => a = 0) x -> sumsq x = 0.
Proof.
  induction 1 as [|a x Ha _ IH]; [reflexivity|].
  rewrite sumsq_cons, IH, Ha. lra.
Qed.

(** X1. [cosine_similarity] is symmetric in its two arguments. *)
Theorem cosine_similarity_sym (x y : K.vec) :
  Helpers.cosine_similarity (x, y) = Helpers.cosine_similarity (y, x).
Proof.
  rewrite !cosine_similarity_unfold, (dot_comm x y).
  f_equal. ring.
Qed.

(** X2. With a zero vector on either side [cosine_similarity] returns 0:
    the guard of [K.l2_normalize] keeps the division defined. *)
Theorem cosine_similarity_zero (x y : K.vec) :
  Forall (fun a => a = 0) x ->
  Helpers.cosine_similarity (x, y) = [0]
  /\ Helpers.cosine_similarity (y, x) = [0].
Proof.
  intros Hx. apply sumsq_zero in Hx.
  rewrite !cosine_similarity_unfold, (dot_comm y x), (dot_zero_l x y Hx).
  split; f_equal; ring.
Qed.

Lemma cosine_similarity_zero_witness :
  Helpers.cosine_similarity ([0; 0], [1; 2]) = [0]
  /\ Helpers.cosine_similarity ([1; 2], [0; 0]) = [0].
Proof.
  apply cosine_similarity_zero. repeat constructor.
Defined.

(** X3. Negating one argument negates the similarity, for vectors of any
    size. *)
Theorem cosine_similarity_opp (x y : K.vec) :
  Helpers.cosine_similarity (map Ropp x, y)
  = map Ropp (Helpers.cosine_similarity (x, y)).
Proof.
  rewrite !cosine_similarity_unfold, sumsq_opp, dot_opp_l.
  cbn [map]. f_equal. ring.
Qed.

(** ** [contrastive_loss] on a batch *)

Lemma sum_nonneg (v : K.vec) : Forall (fun a => 0 <= a) v -> 0 <= K.sum v.
Proof.
  induction 1 as [|a v Ha _ IH]; cbn [K.sum]; lra.
Qed.

Lemma sum_le_length (v : K.vec) :
  Forall (fun a => a <= 1) v -> K.sum v <= INR (length v).
Proof.
  induction 1 as [|a v Ha _ IH]; [cbn; lra|].
  cbn [K.sum length]. rewrite S_INR. lra.
Qed.

Lemma contrastive_terms_length (ys ps : K.vec) :
  length ys = length ps ->
  length (Helpers.contrastive_terms ys ps) = length ys.
Proof.
  revert ps. induction ys as [|t ys IH]; intros [|p ps] Hl;
    try discriminate; [reflexivity|].
  rewrite contrastive_terms_cons. cbn [length]. f_equal.
  apply IH. now injection Hl.
Qed.

Lemma example_loss_nonneg (t p : R) : 0 <= t <= 1 -> 0 <= example_loss t p.
Proof.
  intros Ht. unfold example_loss.
  pose proof (Rle_0_sqr p).
  pose proof (Rle_0_sqr (Rmax (Helpers.margin - p) 0)). nra.
Qed.

Lemma example_loss_le_1 (t p : R) :
  0 <= t <= 1 -> 0 <= p <= 1 -> example_loss t p <= 1.
Proof.
  intros Ht Hp. unfold example_loss, Helpers.margin, Rsqr.
  rewrite hinge_below by lra. nra.
Qed.

Lemma example_loss_zero_iff (t p : R) :
  t = 0 \/ t = 1 ->
  (example_loss t p = 0 <-> (t = 0 /\ p = 0) \/ (t = 1 /\ 1 <= p)).
Proof.
  unfold example_loss, Helpers.margin, Rsqr. intros [->| ->]; split.
  - intros H. left. split; [reflexivity|nra].
  - intros [[_ ->]|[H _]]; lra.
  - intros H. right. split; [reflexivity|].
    destruct (Rle_dec 1 p) as [Hp|Hp]; [exact Hp|].
    rewrite hinge_below in H by lra. nra.
  - intros [[H _]|[_ H]]; [lra|]. rewrite hinge_above by lra. lra.
Qed.

Lemma contrastive_terms_nonneg (ys ps : K.vec) :
  Forall (fun t => 0 <= t <= 1) ys ->
  Forall (fun a => 0 <= a) (Helpers.contrastive_terms ys ps).
Proof.
  intros Hy. revert ps.
  induction Hy as [|t ys Ht _ IH]; intros ps; [apply List.Forall_nil|].
  destruct ps as [|p ps]; [apply List.Forall_nil|].
  rewrite contrastive_terms_cons.
  apply List.Forall_cons; [now apply example_loss_nonneg|apply IH].
Qed.

Lemma contrastive_loss_nonneg (y_true y_pred : K.vec) :
  y_true <> [] -> length y_true = length y_pred ->
  Forall (fun t => 0 <= t <= 1) y_true ->
  0 <= Helpers.contrastive_loss y_true y_pred.
Proof.
  intros Hne Hl Hy. unfold Helpers.contrastive_loss, K.mean.
  rewrite contrastive_terms_length by exact Hl.
  apply Rmult_le_pos.
  - now apply sum_nonneg, contrastive_terms_nonneg.
  - apply Rlt_le, Rinv_0_lt_compat, lt_0_INR.
    destruct y_true; [congruence|cbn; lia].
Qed.

(** X4. On a non-empty batch with labels between 0 and 1 the loss is
    nonnegative, and it is at most 1 when every prediction lies between 0
    and 1, as the outputs of the sigmoid unit do. *)
Theorem contrastive_loss_bounds (y_true y_pred : K.vec) :
  y_true <> [] -> length y_true = length y_pred ->
  Forall (fun t => 0 <= t <= 1) y_true ->
  0 <= Helpers.contrastive_loss y_true y_pred
  /\ (Forall (fun p => 0 <= p <= 1) y_pred ->
      Helpers.contrastive_loss y_true y_pred <= 1).
Proof.
  intros Hne Hl Hy. split; [now apply contrastive_loss_nonneg|].
  unfold Helpers.contrastive_loss, K.mean.
  rewrite contrastive_terms_length by exact Hl.
  assert (Hn : 0 < INR (length y_true)).
  { apply lt_0_INR. destruct y_true; [congruence|cbn; lia]. }
  - intros Hp.
    apply Rmult_le_reg_r with (INR (length y_true)); [exact Hn|].
    unfold Rdiv. rewrite Rmult_assoc, Rinv_l, Rmult_1_r, Rmult_1_l by lra.
    rewrite <- (contrastive_terms_length y_true y_pred Hl).
    apply sum_le_length.
    clear Hne Hn. revert y_pred Hl Hp.
    induction Hy as [|t ys Ht _ IH]; intros [|p ps] Hl Hp;
      try discriminate; [apply List.Forall_nil|].
    rewrite contrastive_terms_cons. inversion Hp; subst.
    apply List.Forall_cons; [now apply example_loss_le_1|].
    apply IH; [now injection Hl|assumption].
Qed.

Lemma contrastive_loss_bounds_witness :
  0 <= Helpers.contrastive_loss [1; 0] [1 / 2; 1 / 4]
  /\ (Forall (fun p => 0 <= p <= 1) [1 / 2; 1 / 4] ->
      Helpers.contrastive_loss [1; 0] [1 / 2; 1 / 4] <= 1).
Proof.
  apply contrastive_loss_bounds.
  - discriminate.
  - reflexivity.
  - repeat constructor; lra.
Defined.

(** X5. On a non-empty batch in which every non-matching example (label
    0) has score 0 and every matching example (label 1) has a score of at
    least the margin 1, the loss is zero. *)
Theorem contrastive_loss_zero (y_true y_pred : K.vec) :
  y_true <> [] ->
  Forall2 (fun t p => (t = 0 /\ p = 0) \/ (t = 1 /\ 1 <= p)) y_true y_pred ->
  Helpers.contrastive_loss y_true y_pred = 0.
Proof.
  intros Hne H. unfold Helpers.contrastive_loss.
  assert (Hs : K.sum (Helpers.contrastive_terms y_true y_pred) = 0).
  { clear Hne. induction H as [|t p ys ps Htp _ IH]; [reflexivity|].
    rewrite contrastive_terms_cons. cbn [K.sum]. rewrite IH.
    assert (E : example_loss t p = 0)
      by (apply example_loss_zero_iff; tauto).
    lra. }
  unfold K.mean. rewrite Hs. unfold Rdiv. ring.
Qed.

Lemma contrastive_loss_zero_witness :
  Helpers.contrastive_loss [0; 1] [0; 1] = 0.
Proof.
  apply contrastive_loss_zero.
  - discriminate.
  - constructor; [left; split; reflexivity|].
    constructor; [right; split; [reflexivity|lra]|].
    constructor.
Defined.

(** ** The views of a sequence: last step, mean-pool, max-pool *)

Lemma map_nth_seq_id (row : K.vec) :
  map (fun j => nth j row 0) (seq 0 (length row)) = row.
Proof.
  apply nth_ext with (d := 0) (d' := 0).
  - now rewrite length_map, length_seq.
  - intros i Hi. rewrite length_map, length_seq in Hi.
    rewrite nth_indep with (d' := nth 0%nat row 0)
      by now rewrite length_map, length_seq.
    rewrite (map_nth (fun j => nth j row 0) (seq 0 (length row)) 0%nat i).
    now rewrite seq_nth.
Qed.

(** X6. On a sequence tensor with at least one timestep whose rows all
    have [n] features, even or odd, the result of [last_timestep_rev] has
    [n] features again: the first [n / 2] (rounded down) come from the
    final timestep and the remaining ones from the first timestep. *)
Theorem last_timestep_rev_width (n : nat) (vests : K.seqt) :
  vests <> [] ->
  Forall (fun row => length row = n) vests ->
  Helpers.last_timestep_rev vests
  = firstn (n / 2) (List.last vests []) ++ skipn (n / 2) (List.hd [] vests)
  /\ length (Helpers.last_timestep_rev vests) = n.
Proof.
  intros Hne HF.
  assert (Hlast : length (List.last vests []) = n)
    by now apply last_in_Forall.
  destruct vests as [|row0 rest]; [congruence|].
  assert (Hhd : length row0 = n) by now inversion HF.
  unfold Helpers.last_timestep_rev, K.int_shape_last, K.concatenate.
  cbn [List.hd concat]. rewrite app_nil_r, Hhd.
  split; [reflexivity|].
  rewrite length_app, length_firstn, length_skipn, Hlast, Hhd. lia.
Qed.

Lemma last_timestep_rev_width_witness :
  Helpers.last_timestep_rev [[1; 2; 3]; [4; 5; 6]] = [4; 2; 3]
  /\ length (Helpers.last_timestep_rev [[1; 2; 3]; [4; 5; 6]]) = 3%nat.
Proof.
  apply (last_timestep_rev_width 3 [[1; 2; 3]; [4; 5; 6]]).
  - discriminate.
  - repeat constructor.
Defined.

(** X7. On a sequence of a single timestep the four views coincide:
    [last_timestep], [last_timestep_rev], the mean-pool and the max-pool
    all return that timestep's row. *)
Theorem single_timestep_views (row : K.vec) :
  Helpers.last_timestep [row] = row
  /\ Helpers.last_timestep_rev [row] = row
  /\ Layers.GlobalAveragePooling1D [row] = row
  /\ Layers.GlobalMaxPooling1D [row] = row.
Proof.
  split; [reflexivity|]. split; [|split].
  - unfold Helpers.last_timestep_rev, K.concatenate.
    cbn [List.last List.hd concat]. rewrite app_nil_r.
    apply firstn_skipn.
  - unfold Layers.GlobalAveragePooling1D, Layers.reduce_time,
      K.int_shape_last.
    cbn [List.hd]. rewrite <- (map_nth_seq_id row) at 2.
    apply map_ext. intros j. unfold Layers.column, K.mean. cbn. field.
  - unfold Layers.GlobalMaxPooling1D, Layers.reduce_time, K.int_shape_last.
    cbn [List.hd]. rewrite <- (map_nth_seq_id row) at 2.
    apply map_ext. intros j. reflexivity.
Qed.

(** X8. Under [Bidirectional], whose rows hold the forward states followed
    by the backward states, [last_timestep_rev] returns the forward
    layer's state after its last step followed by the backward layer's
    state after its last step, [2 * units] features in all. *)
Theorem bidirectional_last_step {W : Type}
    (layer : W -> K.seqt -> K.seqt) (wf wb : W) (units : nat) (t : K.seqt) :
  t <> [] ->
  (forall w s, length (layer w s) = length s) ->
  (forall w s, Forall (fun row => length row = units) (layer w s)) ->
  Helpers.last_timestep_rev (Layers.Bidirectional layer wf wb t)
  = List.last (layer wf t) [] ++ List.last (layer wb (rev t)) []
  /\ length (Helpers.last_timestep_rev (Layers.Bidirectional layer wf wb t))
     = (2 * units)%nat.
Proof.
  intros Hne Hlen Hrow.
  rewrite (last_timestep_rev_Bidirectional layer wf wb units t Hne Hlen Hrow).
  split; [reflexivity|].
  assert (Hn : forall w s, s <> [] -> layer w s <> []).
  { intros w s Hs E. apply (f_equal (@length _)) in E.
    rewrite Hlen in E. destruct s; [congruence|discriminate]. }
  rewrite length_app.
  rewrite (last_in_Forall (fun row => length row = units) (layer wf t) []);
    [|now apply Hn|apply Hrow].
  rewrite (last_in_Forall (fun row => length row = units)
             (layer wb (rev t)) []); [lia| |apply Hrow].
  apply Hn. intros E. apply (f_equal (@rev _)) in E.
  rewrite rev_involutive in E. now apply Hne.
Qed.

Lemma bidirectional_last_step_witness :
  Helpers.last_timestep_rev
    (Layers.Bidirectional (fun (h : R) s => map (fun _ => [h; h]) s)
       1 2 [[0]; [0]; [0]])
  = [1; 1; 2; 2].
Proof.
  apply (bidirectional_last_step
           (fun (h : R) s => map (fun _ => [h; h]) s) 1 2 2
           [[0]; [0]; [0]]).
  - discriminate.
  - intros w s. apply length_map.
  - intros w s. apply List.Forall_forall. intros row Hin.
    apply in_map_iff in Hin. destruct Hin as [r [<- _]]. reflexivity.
Defined.

(** ** [build_rnn_encoder]: when it raises, what it returns, and shapes *)

Lemma concat_steps_length (a b : K.seqt) :
  length a = length b -> length (Layers.concat_steps a b) = length a.
Proof.
  revert b. induction a as [|r a IH]; intros [|q b] Hl;
    try discriminate; [reflexivity|].
  cbn [Layers.concat_steps length]. f_equal. apply IH. now injection Hl.
Qed.

Lemma concat_steps_rows (u v : nat) (a b : K.seqt) :
  Forall (fun row => length row = u) a ->
  Forall (fun row => length row = v) b ->
  Forall (fun row => length row = (u + v)%nat) (Layers.concat_steps a b).
Proof.
  intros Ha. revert b.
  induction Ha as [|r a Hr _ IH]; intros b Hb; [apply List.Forall_nil|].
  destruct Hb as [|q b Hq Hb]; [apply List.Forall_nil|].
  cbn [Layers.concat_steps]. apply List.Forall_cons.
  - rewrite length_app. lia.
  - now apply IH.
Qed.

Lemma reduce_time_length (f : K.vec -> R) (t : K.seqt) :
  length (Layers.reduce_time f t) = K.int_shape_last t.
Proof. unfold Layers.reduce_time. now rewrite length_map, length_seq. Qed.

Lemma int_shape_last_rows (n : nat) (t : K.seqt) :
  t <> [] -> Forall (fun row => length row = n) t -> K.int_shape_last t = n.
Proof.
  intros Hne HF. destruct t as [|row t]; [congruence|].
  unfold K.int_shape_last. cbn [List.hd]. now inversion HF.
Qed.

Lemma views_width (bidirectional : bool) (lstm_dim : nat) (t : K.seqt) :
  t <> [] ->
  Forall (fun row => length row = feature_width bidirectional lstm_dim) t ->
  length (get_last_step_of bidirectional t)
  = feature_width bidirectional lstm_dim
  /\ length (Layers.GlobalAveragePooling1D t)
     = feature_width bidirectional lstm_dim
  /\ length (Layers.GlobalMaxPooling1D t)
     = feature_width bidirectional lstm_dim.
Proof.
  intros Hne HF. split; [|split].
  - unfold get_last_step_of, feature_width in *. destruct bidirectional.
    + replace (lstm_dim * 2)%nat with (2 * lstm_dim)%nat in * by lia.
      now apply last_timestep_rev_halves.
    + unfold Helpers.last_timestep.
      now apply (last_in_Forall (fun row => length row = lstm_dim)).
  - unfold Layers.GlobalAveragePooling1D. rewrite reduce_time_length.
    now apply int_shape_last_rows.
  - unfold Layers.GlobalMaxPooling1D. rewrite reduce_time_length.
    now apply int_shape_last_rows.
Qed.

Section EncoderShapes.

Context (cell_w : Type)
        (Cell : cell_kind -> nat -> R -> R -> cell_w -> K.seqt -> K.seqt)
        (bn_w : Type).

Local Abbreviation stack := (rnn_loop cell_w Cell bn_w).
Local Abbreviation build := (build_rnn_encoder cell_w Cell bn_w).

Lemma rnn_loop_step (bidirectional : bool) (lstm_dim : nat) (rdp dp : R)
    (kind : cell_kind) (cudnn : bool) (w : weights cell_w bn_w) (n : nat) :
  stack bidirectional lstm_dim rdp dp kind cudnn w (S n)
  = rnn_layer cell_w Cell bn_w bidirectional lstm_dim rdp dp kind cudnn w n
      (fst (stack bidirectional lstm_dim rdp dp kind cudnn w n)).
Proof.
  unfold rnn_loop. rewrite seq_S, fold_left_app. reflexivity.
Qed.


Section WellShapedCell.

(** A recurrent layer with [return_sequences=True] emits one state of
    [units] features per input step. *)
Hypothesis Cell_length :
  forall kind units dp rdp w s, length (Cell kind units dp rdp w s) = length s.
Hypothesis Cell_rows :
  forall kind units dp rdp w s,
    Forall (fun row => length row = units) (Cell kind units dp rdp w s).

Lemma rnn_layer_shape (bidirectional : bool) (lstm_dim : nat) (rdp dp : R)
    (kind : cell_kind) (cudnn : bool) (w : weights cell_w bn_w) (li : nat)
    (rnn : K.seqt -> K.seqt) (inp : K.seqt) :
  length (rnn inp) = length inp ->
  let rnn' :=
    fst (rnn_layer cell_w Cell bn_w bidirectional lstm_dim rdp dp kind cudnn
           w li rnn) in
  length (rnn' inp) = length inp
  /\ Forall (fun row => length row = feature_width bidirectional lstm_dim)
       (rnn' inp).
Proof.
  intros Hl. unfold rnn_layer, feature_width.
  destruct bidirectional; cbn [fst].
  - unfold Layers.Bidirectional. split.
    + rewrite concat_steps_length; rewrite ?length_rev, !Cell_length;
        rewrite ?length_rev; congruence.
    + replace (lstm_dim * 2)%nat with (lstm_dim + lstm_dim)%nat by lia.
      apply concat_steps_rows; [apply Cell_rows|].
      apply List.Forall_forall. intros row Hin.
      apply in_rev in Hin. revert row Hin.
      apply List.Forall_forall, Cell_rows.
  - destruct cudnn; split; rewrite ?Cell_length; auto using Cell_rows.
Qed.

Lemma rnn_loop_shape (bidirectional : bool) (lstm_dim : nat) (rdp dp : R)
    (kind : cell_kind) (cudnn : bool) (w : weights cell_w bn_w)
    (layers : nat) (inp : K.seqt) :
  let rnn := fst (stack bidirectional lstm_dim rdp dp kind cudnn w layers) in
  length (rnn inp) = length inp
  /\ ((1 <= layers)%nat ->
      Forall (fun row => length row = feature_width bidirectional lstm_dim)
        (rnn inp)).
Proof.
  cbv zeta. induction layers as [|n [IHl _]].
  - split; [reflexivity|lia].
  - rewrite rnn_loop_step.
    destruct (rnn_layer_shape bidirectional lstm_dim rdp dp kind cudnn w n
                (fst (stack bidirectional lstm_dim rdp dp kind cudnn w n))
                inp IHl) as [H1 H2].
    split; [exact H1|intros _; exact H2].
Qed.


End WellShapedCell.

End EncoderShapes.

Lemma sample_cell_length kind units dp rdp (h : R) (s : K.seqt) :
  length (Sample.Cell kind units dp rdp h s) = length s.
Proof. apply length_map. Qed.

Lemma sample_cell_rows kind units dp rdp (h : R) (s : K.seqt) :
  Forall (fun row => length row = units) (Sample.Cell kind units dp rdp h s).
Proof.
  apply List.Forall_forall. intros row Hin.
  apply in_map_iff in Hin. destruct Hin as [r [<- _]]. apply repeat_length.
Qed.



(** ** [get_qa_memnet_model]: when it is built, and the shapes inside *)

Section ModelShapes.

Context (cell_w : Type)
        (Cell : cell_kind -> nat -> R -> R -> cell_w -> K.seqt -> K.seqt)
        (bn_w : Type)
        (BatchNormalization : bn_w -> K.vec -> K.vec)
        (Dropout : R -> K.vec -> K.vec)
        (build_deep_sim_net :
           option (nat -> nat -> R -> K.vec * K.vec -> K.vec)).

Local Abbreviation qa_net :=
  (get_qa_memnet_model cell_w Cell bn_w BatchNormalization Dropout
     build_deep_sim_net).
Local Abbreviation qa_graph :=
  (relevance_graph cell_w bn_w BatchNormalization Dropout).
Local Abbreviation sentence_encoder self w :=
  (build_rnn_encoder cell_w Cell bn_w w false (bdr self) (lstm_dim self)
     (rdp self) (edp self) (layers self) true (cudnn self) (pool self)).
Local Abbreviation sentence_rnn self w :=
  (fst (rnn_loop cell_w Cell bn_w (bdr self) (lstm_dim self) (rdp self)
          (edp self) (select_cell true (cudnn self)) (cudnn self) w
          (layers self))).

Lemma build_rnn_encoder_last_only (w : weights cell_w bn_w)
    (bidirectional : bool) (lstm_dim : nat) (rdp dp : R) (layers : nat)
    (lstm cudnn : bool) :
  (1 <= layers)%nat ->
  exists t : K.seqt -> K.vec,
    build_rnn_encoder cell_w Cell bn_w w false bidirectional lstm_dim rdp dp
      layers lstm cudnn false
    = Ok (OutVec t).
Proof.
  intros Hl. unfold build_rnn_encoder.
  pose proof (rnn_loop_last_step cell_w Cell bn_w bidirectional lstm_dim
                rdp dp (select_cell lstm cudnn) cudnn w layers Hl) as Hg.
  destruct (rnn_loop _ _ _ _ _ _ _ _ _ _ _) as [rnn g]. cbn in Hg. subst g.
  cbn. eauto.
Qed.

Lemma embedder_default (w : weights cell_w bn_w) (seqlen : nat)
    (voc : option nat) (dim : nat) (inp : list nat) :
  build_embedder cell_w bn_w w seqlen voc false false dim inp
  = map (embedding cell_w bn_w w) inp.
Proof. unfold build_embedder, Layers.Embedding. now destruct voc. Qed.

(** The model that is built is the graph over the four outputs of the
    pooled encoder. *)
Lemma model_inv_pooled (self : config) (w : weights cell_w bn_w)
    (m : list nat -> list nat -> tensors) :
  qa_net self w = Ok m ->
  pool self = true /\ (1 <= layers self)%nat
  /\ (dsn self = true -> build_deep_sim_net <> None)
  /\ m = qa_graph self w
           (fun inp =>
              K.concatenate
                [get_last_step_of (bdr self) (sentence_rnn self w inp);
                 Layers.GlobalAveragePooling1D (sentence_rnn self w inp);
                 Layers.GlobalMaxPooling1D (sentence_rnn self w inp)])
           (fun inp => get_last_step_of (bdr self) (sentence_rnn self w inp))
           (fun inp => Layers.GlobalAveragePooling1D (sentence_rnn self w inp))
           (fun inp => Layers.GlobalMaxPooling1D (sentence_rnn self w inp)).
Proof.
  intros Hm.
  destruct (model_inv cell_w Cell bn_w BatchNormalization Dropout
              build_deep_sim_net self w m Hm)
    as (o0 & o1 & o2 & o3 & He & -> & _ & _ & _ & Hd).
  assert (Hl : (1 <= layers self)%nat).
  { destruct (layers self) as [|n] eqn:El; [|lia].
    rewrite build_rnn_encoder_no_layer in He. discriminate. }
  assert (Hp : pool self = true).
  { destruct (pool self) eqn:Ep; [reflexivity|].
    destruct (build_rnn_encoder_last_only w (bdr self) (lstm_dim self)
                (rdp self) (edp self) (layers self) true (cudnn self) Hl)
      as [t Ht].
    rewrite Ht in He. discriminate. }
  pose proof (build_rnn_encoder_pooled cell_w Cell bn_w w (bdr self)
                (lstm_dim self) (rdp self) (edp self) (layers self)
                true (cudnn self) Hl) as Hb.
  cbv zeta in Hb. rewrite Hp, Hb in He.
  injection He as <- <- <- <-.
  split; [exact Hp|]. split; [exact Hl|]. split; [exact Hd|reflexivity].
Qed.


Lemma dense_comb_output (self : config) (w : weights cell_w bn_w)
    (n : nat) (inputs : K.vec * K.vec) :
  (1 <= n)%nat ->
  length (dense_comb cell_w bn_w BatchNormalization Dropout self w n inputs)
  = dense_dim self
  /\ Forall (fun v => 0 <= v)
       (dense_comb cell_w bn_w BatchNormalization Dropout self w n inputs).
Proof.
  intros Hn. destruct inputs as [inp1 inp2]. unfold dense_comb.
  rewrite dense_loop_stack. destruct n as [|k]; [lia|].
  rewrite dense_relu_stack_last. split.
  - apply Dense_length.
  - apply Dense_relu_nonneg.
Qed.

Lemma dense_dim_pooled (self : config) :
  pool self = true ->
  dense_dim self = (3 * feature_width (bdr self) (lstm_dim self))%nat.
Proof.
  intros Hp. unfold dense_dim, feature_width. rewrite Hp.
  destruct (bdr self); lia.
Qed.

Section WellShapedModel.

Hypothesis Cell_length :
  forall kind units dp rdp w s, length (Cell kind units dp rdp w s) = length s.
Hypothesis Cell_rows :
  forall kind units dp rdp w s,
    Forall (fun row => length row = units) (Cell kind units dp rdp w s).

(** X13. For a recurrent cell that emits one state of [units] features
    per input step and non-empty token sequences, every built model
    compares vectors of equal width: the six sub-representations have
    [lstm_dim] features (twice that when bidirectional), the two full
    representations have [dense_dim] features, and with [dlrs >= 1] the
    conditioned context representation has [dense_dim] features too, all
    of them nonnegative. *)
Theorem representation_widths (self : config) (w : weights cell_w bn_w)
    (m : list nat -> list nat -> tensors) (ctx rpl : list nat) :
  qa_net self w = Ok m -> ctx <> [] -> rpl <> [] ->
  let t := m ctx rpl in
  Forall (fun v => length v = feature_width (bdr self) (lstm_dim self))
    [c1 t; c2 t; c3 t; r1 t; r2 t; r3 t]
  /\ length (enc_ctx t) = dense_dim self
  /\ length (enc_rpl t) = dense_dim self
  /\ ((1 <= dlrs self)%nat ->
      length (enc_ctx_cond t) = dense_dim self
      /\ Forall (fun v => 0 <= v) (enc_ctx_cond t)).
Proof.
  intros Hm Hc Hr.
  destruct (model_inv_pooled self w m Hm) as (Hp & Hl & _ & ->).
  cbv zeta. unfold relevance_graph.
  cbn [c1 c2 c3 r1 r2 r3 enc_ctx enc_rpl enc_ctx_cond].
  rewrite !embedder_default.
  assert (Hviews : forall toks : list nat,
             toks <> [] ->
             let s := sentence_rnn self w (map (embedding cell_w bn_w w) toks)
             in
             length (get_last_step_of (bdr self) s)
             = feature_width (bdr self) (lstm_dim self)
             /\ length (Layers.GlobalAveragePooling1D s)
                = feature_width (bdr self) (lstm_dim self)
             /\ length (Layers.GlobalMaxPooling1D s)
                = feature_width (bdr self) (lstm_dim self)).
  { intros toks Ht. cbv zeta.
    destruct (rnn_loop_shape cell_w Cell bn_w Cell_length Cell_rows
                (bdr self) (lstm_dim self) (rdp self) (edp self)
                (select_cell true (cudnn self)) (cudnn self) w (layers self)
                (map (embedding cell_w bn_w w) toks)) as [Hlen Hrows].
    apply views_width; [|now apply Hrows].
    intros E. rewrite E, length_map in Hlen.
    destruct toks; [congruence|discriminate]. }
  destruct (Hviews ctx Hc) as (C1 & C2 & C3).
  destruct (Hviews rpl Hr) as (R1 & R2 & R3).
  cbv zeta in C1, C2, C3, R1, R2, R3.
  rewrite (dense_dim_pooled self Hp).
  split; [|split; [|split]].
  - repeat (apply List.Forall_cons; [assumption|]). apply List.Forall_nil.
  - unfold K.concatenate. cbn [concat].
    rewrite !length_app, C1, C2, C3. cbn [length]. lia.
  - unfold K.concatenate. cbn [concat].
    rewrite !length_app, R1, R2, R3. cbn [length]. lia.
  - intros Hd. rewrite <- (dense_dim_pooled self Hp).
    now apply dense_comb_output.
Qed.

End WellShapedModel.

End ModelShapes.

Lemma representation_widths_witness :
  exists m : list nat -> list nat -> tensors,
    Sample.get_model 2 0 = Ok m
    /\ length (enc_ctx (m [0%nat; 0%nat] [0%nat])) = 3%nat
    /\ length (enc_rpl (m [0%nat; 0%nat] [0%nat])) = 3%nat
    /\ length (enc_ctx_cond (m [0%nat; 0%nat] [0%nat])) = 3%nat.
Proof.
  eexists. split; [reflexivity|].
  destruct (representation_widths R Sample.Cell unit
              Sample.BatchNormalization Sample.Dropout None
              sample_cell_length sample_cell_rows (Sample.cfg 2) (Sample.w 0)
              _ [0%nat; 0%nat] [0%nat] eq_refl)
    as (_ & H1 & H2 & H3); try discriminate.
  destruct H3 as [H3 _]; [cbn; lia|].
  split; [exact H1|]. split; [exact H2|exact H3].
Defined.


(** ** With [dsn] set the merge head has no effect on the score *)

Lemma fold_left_agree {A B : Type} (f g : A -> B -> A) (l : list B) (a : A) :
  (forall x y, f x y = g x y) -> fold_left f l a = fold_left g l a.
Proof.
  intros H. revert a. induction l as [|b l IH]; intros a; [reflexivity|].
  cbn [fold_left]. now rewrite H, IH.
Qed.

Lemma rnn_loop_weights (cell_w : Type)
    (Cell : cell_kind -> nat -> R -> R -> cell_w -> K.seqt -> K.seqt)
    (bn_w : Type) (w w' : weights cell_w bn_w)
    (bidirectional : bool) (lstm_dim : nat) (rdp dp : R) (kind : cell_kind)
    (cudnn : bool) (layers : nat) :
  rnn_fw cell_w bn_w w = rnn_fw cell_w bn_w w' ->
  rnn_bw cell_w bn_w w = rnn_bw cell_w bn_w w' ->
  rnn_loop cell_w Cell bn_w bidirectional lstm_dim rdp dp kind cudnn w layers
  = rnn_loop cell_w Cell bn_w bidirectional lstm_dim rdp dp kind cudnn w'
      layers.
Proof.
  intros Hf Hb. unfold rnn_loop. apply fold_left_agree.
  intros st li. unfold rnn_layer. now rewrite Hf, Hb.
Qed.

(** X14. With [dsn] set the vector fed to the scoring head holds exactly
    ten similarities, and neither it nor the score depends on the merge
    head: two models that differ only in batch normalisation, dropout and
    the merge head's weights give the same score on every input. *)
Theorem dsn_score_ignores_merge_head (cell_w : Type)
    (Cell : cell_kind -> nat -> R -> R -> cell_w -> K.seqt -> K.seqt)
    (bn_w : Type)
    (BatchNormalization BatchNormalization' : bn_w -> K.vec -> K.vec)
    (Dropout Dropout' : R -> K.vec -> K.vec)
    (build_deep_sim_net :
       option (nat -> nat -> R -> K.vec * K.vec -> K.vec))
    (self : config) (w w' : weights cell_w bn_w)
    (m m' : list nat -> list nat -> tensors) :
  dsn self = true ->
  embedding cell_w bn_w w = embedding cell_w bn_w w' ->
  rnn_fw cell_w bn_w w = rnn_fw cell_w bn_w w' ->
  rnn_bw cell_w bn_w w = rnn_bw cell_w bn_w w' ->
  fc1_w cell_w bn_w w = fc1_w cell_w bn_w w' ->
  relevance cell_w bn_w w = relevance cell_w bn_w w' ->
  get_qa_memnet_model cell_w Cell bn_w BatchNormalization Dropout
    build_deep_sim_net self w = Ok m ->
  get_qa_memnet_model cell_w Cell bn_w BatchNormalization' Dropout'
    build_deep_sim_net self w' = Ok m' ->
  forall ctx rpl : list nat,
    length (sims (m ctx rpl)) = 10%nat
    /\ sims (m ctx rpl) = sims (m' ctx rpl)
    /\ fc2 (m ctx rpl) = fc2 (m' ctx rpl).
Proof.
  intros Hd He Hf Hb H1 H2 Hm Hm' ctx rpl.
  destruct (model_inv_pooled _ _ _ _ _ _ _ _ _ Hm) as (_ & _ & _ & ->).
  destruct (model_inv_pooled _ _ _ _ _ _ _ _ _ Hm') as (_ & _ & _ & ->).
  rewrite <- (rnn_loop_weights cell_w Cell bn_w w w' (bdr self)
                (lstm_dim self) (rdp self) (edp self)
                (select_cell true (cudnn self)) (cudnn self) (layers self)
                Hf Hb).
  unfold relevance_graph. cbn [sims fc2]. rewrite Hd.
  rewrite !embedder_default, <- He, <- H1, <- H2.
  split; [|split; reflexivity].
  rewrite concatenate_singletons; [reflexivity|].
  repeat (apply List.Forall_cons; [apply cosine_similarity_length|]).
  apply List.Forall_nil.
Qed.

Lemma dsn_score_ignores_merge_head_witness :
  exists m m' : list nat -> list nat -> tensors,
    get_qa_memnet_model R Sample.Cell unit Sample.BatchNormalization
      Sample.Dropout Fixtures.deep_sim_net Fixtures.cfg_dsn
      (Fixtures.w_merge 0) = Ok m
    /\ get_qa_memnet_model R Sample.Cell unit Sample.BatchNormalization
         (fun _ v => map (Rmult 2) v) Fixtures.deep_sim_net Fixtures.cfg_dsn
         (Fixtures.w_merge 5) = Ok m'
    /\ length (sims (m [0%nat] [0%nat])) = 10%nat
    /\ fc2 (m [0%nat] [0%nat]) = fc2 (m' [0%nat] [0%nat]).
Proof.
  eexists. eexists. split; [reflexivity|]. split; [reflexivity|].
  destruct (dsn_score_ignores_merge_head R Sample.Cell unit
              Sample.BatchNormalization Sample.BatchNormalization
              Sample.Dropout (fun _ v => map (Rmult 2) v)
              Fixtures.deep_sim_net Fixtures.cfg_dsn
              (Fixtures.w_merge 0) (Fixtures.w_merge 5) _ _
              eq_refl eq_refl eq_refl eq_refl eq_refl eq_refl
              eq_refl eq_refl [0%nat] [0%nat])
    as (Hlen & _ & Hfc).
  split; [exact Hlen|exact Hfc].
Defined.

(** ** [build_embedder] *)

Lemma softmax_length (v : K.vec) : length (Layers.softmax v) = length v.
Proof. unfold Layers.softmax. now rewrite !length_map. Qed.

Lemma softmax_const (c : R) {A : Type} (l : list A) :
  l <> [] ->
  Layers.softmax (map (fun _ => c) l) = map (fun _ => / INR (length l)) l.
Proof.
  intros Hne. unfold Layers.softmax. rewrite !map_map.
  assert (Hs : K.sum (map (fun _ : A => exp c) l) = INR (length l) * exp c).
  { clear Hne. induction l as [|a l IH]; [cbn; ring|].
    cbn [map K.sum length]. rewrite IH, S_INR. ring. }
  rewrite Hs. apply map_ext. intros _.
  assert (0 < INR (length l)).
  { apply lt_0_INR. destruct l; [congruence|cbn; lia]. }
  pose proof (exp_pos c). field. split; lra.
Qed.

Lemma mul_repeat (a : R) (row : K.vec) :
  K.mul row (repeat a (length row)) = map (fun x => x * a) row.
Proof.
  induction row as [|x row IH]; [reflexivity|].
  cbn [length repeat K.mul map]. now rewrite IH.
Qed.

Lemma broadcast_rows (d : nat) (act : K.seqt) (ws : K.vec) :
  Forall (fun row => length row = d) act ->
  map Helpers.pairwise_mul
    (combine act
       (map (fun g => repeat (List.hd 0 g) d) (map (fun a => [a]) ws)))
  = map (fun '(row, a) => map (fun x => x * a) row) (combine act ws).
Proof.
  intros Ha. revert ws.
  induction Ha as [|row act Hrow _ IH]; intros ws; [reflexivity|].
  destruct ws as [|a ws]; [reflexivity|].
  cbn [map combine List.hd Helpers.pairwise_mul].
  rewrite IH. f_equal. subst d. apply mul_repeat.
Qed.

Section EmbedderFacts.

Context (cell_w bn_w : Type).

Local Abbreviation embed := (build_embedder cell_w bn_w).

Lemma embedder_act_rows (w : weights cell_w bn_w) (seqlen : nat)
    (voc : option nat) (transformed : bool) (dim : nat) (inp : list nat) :
  (transformed = false ->
   forall i, length (embedding cell_w bn_w w i) = dim) ->
  length (embed w seqlen voc false transformed dim inp) = length inp
  /\ Forall (fun row => length row = dim)
       (embed w seqlen voc false transformed dim inp).
Proof.
  intros Hrows. unfold build_embedder, Layers.Embedding.
  assert (E : match voc with
              | Some _ => map (embedding cell_w bn_w w) inp
              | None => map (embedding cell_w bn_w w) inp
              end = map (embedding cell_w bn_w w) inp) by now destruct voc.
  rewrite E. destruct transformed.
  - rewrite !length_map. split; [reflexivity|].
    apply List.Forall_forall. intros row Hin.
    apply in_map_iff in Hin. destruct Hin as [r [<- Hin]].
    apply in_map_iff in Hin. destruct Hin as [e [<- _]].
    rewrite length_map. apply Dense_length.
  - rewrite length_map. split; [reflexivity|].
    apply List.Forall_forall. intros row Hin.
    apply in_map_iff in Hin. destruct Hin as [i [<- _]]. now apply Hrows.
Qed.

Lemma embedder_weighted_unfold (w : weights cell_w bn_w) (seqlen : nat)
    (voc : option nat) (transformed : bool) (dim : nat) (inp : list nat) :
  (transformed = false ->
   forall i, length (embedding cell_w bn_w w i) = dim) ->
  embed w seqlen voc true transformed dim inp
  = map (fun '(row, a) => map (fun x => x * a) row)
      (combine (embed w seqlen voc false transformed dim inp)
         (Layers.softmax
            (concat (Layers.Embedding (emb_weight cell_w bn_w w) inp)))).
Proof.
  intros Hrows.
  destruct (embedder_act_rows w seqlen voc transformed dim inp Hrows)
    as [_ Hact].
  unfold build_embedder in *. now apply broadcast_rows.
Qed.

(** X15. On [seqlen] token ids below the vocabulary size, with an
    embedding table whose rows hold [emb_dim] entries and a weight table
    whose rows hold one entry, [build_embedder] returns [seqlen] rows of
    [emb_dim] entries each, for every choice of the flags [weighted] and
    [transformed]. *)
Theorem build_embedder_rows (w : weights cell_w bn_w) (seqlen v : nat)
    (weighted transformed : bool) (dim : nat) (inp : list nat) :
  length inp = seqlen ->
  Forall (fun i => (i < v)%nat) inp ->
  (forall i, (i < v)%nat -> length (embedding cell_w bn_w w i) = dim) ->
  (forall i, (i < v)%nat -> length (emb_weight cell_w bn_w w i) = 1%nat) ->
  length (embed w seqlen (Some v) weighted transformed dim inp) = seqlen
  /\ Forall (fun row => length row = dim)
       (embed w seqlen (Some v) weighted transformed dim inp).
Proof.
  intros Hlen Hin He Hw.
  assert (Hact : length (embed w seqlen (Some v) false transformed dim inp)
                 = length inp
                 /\ Forall (fun row => length row = dim)
                      (embed w seqlen (Some v) false transformed dim inp)).
  { unfold build_embedder, Layers.Embedding. destruct transformed.
    - rewrite !length_map. split; [reflexivity|].
      apply List.Forall_forall. intros row Hr.
      apply in_map_iff in Hr. destruct Hr as [r [<- Hr]].
      apply in_map_iff in Hr. destruct Hr as [e [<- _]].
      rewrite length_map. apply Dense_length.
    - rewrite length_map. split; [reflexivity|].
      apply List.Forall_forall. intros row Hr.
      apply in_map_iff in Hr. destruct Hr as [i [<- Hi]].
      apply He. revert i Hi. now apply List.Forall_forall. }
  destruct Hact as [Hal Har].
  destruct weighted; [|now rewrite Hal].
  assert (Hws : length (Layers.softmax
                          (concat (Layers.Embedding
                                     (emb_weight cell_w bn_w w) inp)))
                = length inp).
  { rewrite softmax_length.
    change (concat ?l) with (K.concatenate l).
    rewrite concatenate_singletons.
    - unfold Layers.Embedding. now rewrite length_map.
    - unfold Layers.Embedding. apply List.Forall_forall. intros g Hg.
      apply in_map_iff in Hg. destruct Hg as [i [<- Hi]].
      apply Hw. revert i Hi. now apply List.Forall_forall. }
  set (act := embed w seqlen (Some v) false transformed dim inp) in *.
  assert (E : embed w seqlen (Some v) true transformed dim inp
              = map (fun '(row, a) => map (fun x => x * a) row)
                  (combine act
                     (Layers.softmax
                        (concat (Layers.Embedding
                                   (emb_weight cell_w bn_w w) inp))))).
  { unfold act, build_embedder. now apply broadcast_rows. }
  rewrite E. split.
  - rewrite length_map, length_combine, Hal, Hws. lia.
  - apply List.Forall_forall. intros row Hr.
    apply in_map_iff in Hr. destruct Hr as [[r a] [<- Hr]].
    rewrite length_map. apply in_combine_l in Hr.
    revert r Hr. now apply List.Forall_forall.
Qed.

(** X17. While the per-token weight table holds its initial ones, the
    weighted embedder multiplies every token's embedding by one over the
    number of tokens. *)
Theorem weighted_embedder_initial (w : weights cell_w bn_w) (seqlen : nat)
    (voc : option nat) (transformed : bool) (dim : nat) (inp : list nat) :
  (forall i, emb_weight cell_w bn_w w i = [1]) ->
  (transformed = false ->
   forall i, length (embedding cell_w bn_w w i) = dim) ->
  inp <> [] ->
  embed w seqlen voc true transformed dim inp
  = map (map (fun x => x * / INR (length inp)))
      (embed w seqlen voc false transformed dim inp).
Proof.
  intros Hw Hrows Hne.
  rewrite embedder_weighted_unfold by exact Hrows.
  assert (Hc : concat (Layers.Embedding (emb_weight cell_w bn_w w) inp)
               = map (fun _ => 1) inp).
  { unfold Layers.Embedding. clear Hne.
    induction inp as [|i inp IH]; [reflexivity|].
    cbn [map concat]. now rewrite Hw, IH. }
  rewrite Hc, softmax_const by exact Hne.
  destruct (embedder_act_rows w seqlen voc transformed dim inp Hrows)
    as [Hlen _].
  set (k := / INR (length inp)).
  set (act := embed w seqlen voc false transformed dim inp) in *.
  clearbody act k. clear -Hlen. revert act Hlen.
  induction inp as [|i inp IH]; intros [|row act] Hlen; try discriminate;
    [reflexivity|].
  cbn [map combine]. f_equal. apply IH. now injection Hlen.
Qed.

End EmbedderFacts.

Lemma build_embedder_rows_witness :
  length (build_embedder R unit Fixtures.w_emb 3 (Some 5%nat) true true 2
            [1%nat; 4%nat; 2%nat])
  = 3%nat.
Proof.
  apply (build_embedder_rows R unit Fixtures.w_emb 3 5 true true 2
           [1%nat; 4%nat; 2%nat]).
  - reflexivity.
  - repeat constructor.
  - intros i _. reflexivity.
  - intros i _. reflexivity.
Defined.

Lemma weighted_embedder_initial_witness :
  build_embedder R unit Fixtures.w_emb 2 (Some 5%nat) true false 2
    [1%nat; 4%nat]
  = map (map (fun x => x * / INR 2))
      (build_embedder R unit Fixtures.w_emb 2 (Some 5%nat) false false 2
         [1%nat; 4%nat]).
Proof.
  apply (weighted_embedder_initial R unit Fixtures.w_emb 2 (Some 5%nat) false
           2 [1%nat; 4%nat]).
  - intros i. reflexivity.
  - intros _ i. reflexivity.
  - discriminate.
Defined.

(** ** [predict_score_on_batch] *)

Section FacadeMore.

Context (cell_w : Type)
        (Cell : cell_kind -> nat -> R -> R -> cell_w -> K.seqt -> K.seqt)
        (bn_w : Type)
        (BatchNormalization : bn_w -> K.vec -> K.vec)
        (Dropout : R -> K.vec -> K.vec)
        (build_deep_sim_net :
           option (nat -> nat -> R -> K.vec * K.vec -> K.vec)).

Local Abbreviation scores_of :=
  (predict_score_on_batch cell_w Cell bn_w BatchNormalization Dropout
     build_deep_sim_net).
Local Abbreviation the_net :=
  (get_qa_memnet_model cell_w Cell bn_w BatchNormalization Dropout
     build_deep_sim_net).
Local Abbreviation nets := (heap cell_w bn_w).


End FacadeMore.


